(** * The semi-discrete resistive MHD operator (miniapps/mhd/imResistiveMHDOperatorp.hpp)

    A shallow embedding of [ResistiveMHDOperator] and [ReducedSystemOperator].

    Conventions of the embedding:
    - a [double] is an exact rational ([Q]); rounding is outside the model,
      and so are the infinities and NaN: the quotient by a divisor that is
      zero is left unspecified (the member [quotient] of [Library]);
    - an [mfem::Vector] owned by the caller lives in a heap of vectors and is
      named by its address; [Vector v(data + off, n)] is a [View] into it, so
      that the aliases made by [ImplicitSolve], [Mult] and [MakeTRef] see
      every later write;
    - the linear-algebra kernels of the MFEM library (assembled forms,
      matrices, Krylov and Newton solvers) are the members of the type
      classes [Library] and [NonlinearSolver]: the code below never looks
      inside them, it only calls them;
    - every call into the library is recorded in a trace, so that "operator
      X is never applied" is a statement about the run;
    - a pointer is an [option]; using a null pointer, reading outside a
      vector or breaking a size contract of the library is [Undefined];
      [MFEM_VERIFY] failing is [Abort]. *)

From Stdlib Require Import QArith Lia.
From stdpp Require Import base list gmap strings.

Local Open Scope nat_scope.

(** ** Vectors *)

Abbreviation Vec := (list Q).
Abbreviation addr := nat.

(** [Vector v(base.GetData() + off, len)]: a non-owning alias. *)
Record View := mkView { v_base : addr; v_off : nat; v_len : nat }.

Definition tabulate (n : nat) (f : nat -> Q) : Vec := f <$> seq 0 n.

(** [v = c] for a scalar [c]. *)
Definition Fill (c : Q) (v : Vec) : Vec := (fun _ => c) <$> v.

(** [v.Neg()] *)
Definition Neg (v : Vec) : Vec := Qopp <$> v.

(** [v.SetSubVector(dofs, c)] on in-range indices. *)
Definition SetSubVector_list (dofs : list nat) (c : Q) (v : Vec) : Vec :=
  foldl (fun acc i => <[i := c]> acc) v dofs.

Definition in_range (n : nat) (dofs : list nat) : bool :=
  forallb (fun i => i <? n) dofs.

(** Replace [len] entries of [d] from offset [off]. *)
Definition splice (off : nat) (x d : Vec) : Vec :=
  take off d ++ x ++ drop (off + length x) d.

Definition slice (off len : nat) (d : Vec) : Vec := take len (drop off d).

(** ** Outcomes of a run *)

Inductive UB :=
| NullDeref (what : string)
| OutOfRange (what : string)
| SizeMismatch (what : string).

Inductive Result (A : Type) :=
| Ok (a : A)
| Abort (msg : string)
| Undefined (u : UB).
Arguments Ok {A} a.
Arguments Abort {A} msg.
Arguments Undefined {A} u.

(** ** The library's objects, as far as this file configures them *)

Record ParFiniteElementSpace := mkFES { TrueVSize : nat; GetVSize : nat }.

(** A function of position. *)
Definition FunctionCoefficient := list Q -> Q.

(** [MyCoefficient(gf, dim)]: the coefficient built on a grid function; the
    integrator reads the grid function when the form is assembled. *)
Record MyCoefficient := mkMyCoefficient { coef_gf : Vec; coef_dim : nat }.

Inductive Integrator :=
| MassIntegrator
| DiffusionIntegrator (coef : option Q)
| BoundaryGradIntegrator
| ConvectionIntegrator (velocity : MyCoefficient).

Record ParBilinearForm := mkForm
  { dbfi : list Integrator;      (* domain integrators *)
    bfbfi : list Integrator;     (* boundary face integrators *)
    assembled : bool }.

Definition new_ParBilinearForm : ParBilinearForm := mkForm [] [] false.
Definition AddDomainIntegrator (i : Integrator) (a : ParBilinearForm) :=
  mkForm (dbfi a ++ [i]) (bfbfi a) (assembled a).
Definition AddBdrFaceIntegrator (i : Integrator) (a : ParBilinearForm) :=
  mkForm (dbfi a) (bfbfi a ++ [i]) (assembled a).
Definition Assemble (a : ParBilinearForm) := mkForm (dbfi a) (bfbfi a) true.

Inductive HypreParMatrix :=
| EmptyMatrix
| SystemMatrix (a : ParBilinearForm) (ess : list nat).

Inductive SmootherType := Jacobi | GS | Chebyshev.
Record HypreSmoother := mkSmoother { smoother_type : option SmootherType }.

Record CGSolver := mkCG
  { iterative_mode : bool;
    rel_tol : Q; abs_tol : Q; max_iter : nat; print_level : Z;
    prec : option HypreSmoother;
    oper : option HypreParMatrix }.

(** [CGSolver s(comm)]: every numeric field is set by the constructors below
    before the solver is used. *)
Definition new_CGSolver : CGSolver := mkCG false 0 0 10 (-1)%Z None None.

Inductive HypreSolver := HypreBoomerAMG (A : HypreParMatrix).

Record HyprePCG := mkPCG
  { pcg_A : HypreParMatrix; pcg_iterative_mode : bool;
    pcg_tol : Q; pcg_max_iter : nat; pcg_print_level : Z;
    pcg_prec : option HypreSolver }.

(** The true-dof vector of a grid function: its own, or a reference made
    by [MakeTRef]. *)
Inductive TVector := Owned (v : Vec) | Ref (v : View).

Record ParGridFunction := mkGF
  { gf_fes : option ParFiniteElementSpace;
    gf_data : Vec;               (* local degrees of freedom *)
    t_vec : TVector }.

(** [ParGridFunction gf;] *)
Definition new_ParGridFunction : ParGridFunction := mkGF None [] (Owned []).

(** [ParLinearForm] with its [DomainLFIntegrator]s. *)
Record ParLinearForm := mkLF { dlfi : list FunctionCoefficient; lf_assembled : bool }.

(** The state of a Newton solver that [GetConverged] reads. *)
Record PetscNonlinearSolver := mkNewton { converged : bool }.

(** ** The trace of library calls *)

Inductive OpName := opM | opK | opKB | opDSl | opDRe | opNv | opNb | opMmat | opKmat.
Inductive SolverName := sM_solver | sK_solver | sK_pcg.

Inductive Event :=
| EvDistribute (tv : Vec)                      (* SetFromTrueVector *)
| EvAssemble (o : OpName) (a : ParBilinearForm)
| EvApply (o : OpName) (x : Vec)               (* Mult, AddMult, TrueAddMult *)
| EvFormLinearSystem (o : OpName) (x b : Vec)
| EvSolve (s : SolverName) (b x0 : Vec)
| EvNewton (rhs k0 : Vec).

#[global] Instance OpName_eq_dec : EqDecision OpName.
Proof. solve_decision. Defined.
#[global] Instance SolverName_eq_dec : EqDecision SolverName.
Proof. solve_decision. Defined.

Definition solves (s : SolverName) (e : Event) : bool :=
  match e with EvSolve s' _ _ => bool_decide (s' = s) | _ => false end.

(** ** The machine: a heap of caller-owned vectors and the trace *)

Record World := mkWorld { heap : gmap addr Vec; trace : list Event }.

Definition Run (A : Type) := World -> Result A * World.

Definition ret {A} (a : A) : Run A := fun w => (Ok a, w).

Definition bind {A B} (m : Run A) (f : A -> Run B) : Run B :=
  fun w => match m w with
           | (Ok a, w') => f a w'
           | (Abort s, w') => (Abort s, w')
           | (Undefined u, w') => (Undefined u, w')
           end.

Declare Scope run_scope.
Delimit Scope run_scope with run.
Notation "x <- m ;; k" := (bind m (fun x => k))
  (at level 100, m at next level, right associativity) : run_scope.
Notation "m ;;; k" := (bind m (fun _ => k))
  (at level 100, right associativity) : run_scope.
Local Open Scope run_scope.

Definition undefined {A} (u : UB) : Run A := fun w => (Undefined u, w).

(** [MFEM_VERIFY(cond, msg)] *)
Definition MFEM_VERIFY (cond : bool) (msg : string) : Run unit :=
  fun w => if cond then (Ok tt, w) else (Abort msg, w).

Definition check (cond : bool) (u : UB) : Run unit :=
  if cond then ret tt else undefined u.

(** [p->...] *)
Definition deref {A} (what : string) (p : option A) : Run A :=
  match p with Some a => ret a | None => undefined (NullDeref what) end.

Definition log (e : Event) : Run unit :=
  fun w => (Ok tt, mkWorld (heap w) (trace w ++ [e])).

Definition get_heap : Run (gmap addr Vec) := fun w => (Ok (heap w), w).

Definition read_all (a : addr) : Run Vec :=
  fun w => match heap w !! a with
           | Some d => (Ok d, w)
           | None => (Undefined (OutOfRange "vector"), w)
           end.

Definition write_all (a : addr) (x : Vec) : Run unit :=
  fun w => (Ok tt, mkWorld (<[a := x]> (heap w)) (trace w)).

Definition read (v : View) : Run Vec :=
  d <- read_all (v_base v) ;;
  check (v_off v + v_len v <=? length d) (OutOfRange "view") ;;;
  ret (slice (v_off v) (v_len v) d).

Definition write (v : View) (x : Vec) : Run unit :=
  d <- read_all (v_base v) ;;
  check (v_off v + v_len v <=? length d) (OutOfRange "view") ;;;
  check (length x =? v_len v) (SizeMismatch "view") ;;;
  write_all (v_base v) (splice (v_off v) x d).

(** A call into the library: it fails, or it yields a value and the events
    it leaves in the trace. It has no access to the caller's vectors. *)
Definition Lib (A : Type) := Result (list Event * A).

Definition call {A} (m : Lib A) : Run A :=
  fun w => match m with
           | Ok (es, a) => (Ok a, mkWorld (heap w) (trace w ++ es))
           | Abort s => (Abort s, w)
           | Undefined u => (Undefined u, w)
           end.

(** An in-place library call on the vector behind a view. *)
Definition on_view (v : View) (f : Vec -> Lib Vec) : Run unit :=
  y <- read v ;; y' <- call (f y) ;; write v y'.

(** [y.SetSubVector(dofs, c)] *)
Definition SetSubVector (dofs : list nat) (c : Q) (y : Vec) : Lib Vec :=
  if in_range (length y) dofs
  then Ok ([], SetSubVector_list dofs c y)
  else Undefined (OutOfRange "SetSubVector").

(** [a + b], [a - b], [a += b]: sizes must agree. *)
Definition vec_zip (f : Q -> Q -> Q) (a b : Vec) : Lib Vec :=
  if length a =? length b
  then Ok ([], zip_with f a b)
  else Undefined (SizeMismatch "vector").

(** ** The MFEM library, as the operators call it

    Each member gives the entries of the vector a library call produces; the
    wrappers below write them into a destination of the size the call
    requires. *)

Class Library := {
  (** [fespace.GetEssentialTrueDofs(ess_bdr, list)] *)
  GetEssentialTrueDofs : ParFiniteElementSpace -> list Z -> list nat;
  (** [gf.SetFromTrueVector()]: local dofs from true dofs *)
  Distribute : ParFiniteElementSpace -> Vec -> nat -> Q;
  (** [gf.SetTrueVector()]: true dofs from local dofs *)
  GetTrueDofs : ParFiniteElementSpace -> Vec -> nat -> Q;
  (** [gf.ProjectCoefficient(c)] *)
  ProjectCoefficient : ParFiniteElementSpace -> FunctionCoefficient -> nat -> Q;
  (** [ParLinearForm] with a [DomainLFIntegrator(c)], [ParallelAssemble()] *)
  ParallelAssemble : ParFiniteElementSpace -> FunctionCoefficient -> nat -> Q;
  (** [a->Mult(x, y)] on local dofs *)
  form_action : ParFiniteElementSpace -> ParBilinearForm -> Vec -> nat -> Q;
  (** [a->TrueAddMult(x, y)] adds this to [y], on true dofs *)
  form_true_action : ParFiniteElementSpace -> ParBilinearForm -> Vec -> nat -> Q;
  (** [A.Mult(x, y)], [A.AddMult(x, y)] *)
  matrix_action : HypreParMatrix -> Vec -> nat -> Q;
  (** [a->FormLinearSystem(ess, x, b, A, X, B)]: the vectors [X] and [B] *)
  FormLinearSystem_X : ParFiniteElementSpace -> ParBilinearForm -> list nat -> Vec -> Vec -> nat -> Q;
  FormLinearSystem_B : ParFiniteElementSpace -> ParBilinearForm -> list nat -> Vec -> Vec -> nat -> Q;
  (** [solver.Mult(b, x)] from the initial guess [x0] *)
  cg_action : CGSolver -> HypreParMatrix -> Vec -> Vec -> nat -> Q;
  pcg_action : HyprePCG -> Vec -> Vec -> nat -> Q;
  (** [v /= c] ([Vector::operator/=]): the entry it leaves where [a] was.
      For a divisor that is zero the code leaves an infinity or a NaN, which
      no rational is: the member is constrained for the other divisors only,
      so that no statement below can depend on a quotient by zero. *)
  quotient : Q -> Q -> Q;
  quotient_nonzero : forall a c, ~ (c == 0)%Q -> (quotient a c == a / c)%Q
}.

Section LibraryCalls.
Context `{Library}.

(** [ParGridFunction gf(&fespace);] *)
Definition ParGridFunction_on (f : ParFiniteElementSpace) : ParGridFunction :=
  mkGF (Some f) (tabulate (GetVSize f) (fun _ => 0%Q)) (Owned []).

(** [gf.MakeTRef(&fespace, tv, offset)] *)
Definition MakeTRef (f : ParFiniteElementSpace) (tv : addr) (offset : nat)
    (gf : ParGridFunction) : ParGridFunction :=
  mkGF (Some f)
       (tabulate (GetVSize f) (fun i => nth i (gf_data gf) 0%Q))
       (Ref (mkView tv offset (TrueVSize f))).

Definition read_t_vec (gf : ParGridFunction) : Run Vec :=
  match t_vec gf with Owned v => ret v | Ref v => read v end.

(** [gf.SetFromTrueVector()] *)
Definition SetFromTrueVector (gf : ParGridFunction) : Run ParGridFunction :=
  f <- deref "pfes" (gf_fes gf) ;;
  tv <- read_t_vec gf ;;
  check (length tv =? TrueVSize f) (SizeMismatch "SetFromTrueVector") ;;;
  log (EvDistribute tv) ;;;
  ret (mkGF (gf_fes gf) (tabulate (GetVSize f) (Distribute f tv)) (t_vec gf)).

(** [v /= c] *)
Definition Scale_div (c : Q) (v : Vec) : Vec := (fun a => quotient a c) <$> v.

Variable fes : ParFiniteElementSpace.

(** [a->Mult(x, y)] *)
Definition Form_Mult (o : OpName) (a : ParBilinearForm) (x y : Vec) : Lib Vec :=
  if (length x =? GetVSize fes) && (length y =? GetVSize fes)
  then Ok ([EvApply o x], imap (fun i _ => form_action fes a x i) y)
  else Undefined (SizeMismatch "Mult").

(** [a->TrueAddMult(x, y)] *)
Definition TrueAddMult (o : OpName) (a : ParBilinearForm) (x y : Vec) : Lib Vec :=
  if (length x =? TrueVSize fes) && (length y =? TrueVSize fes)
  then Ok ([EvApply o x], imap (fun i yi => (yi + form_true_action fes a x i)%Q) y)
  else Undefined (SizeMismatch "TrueAddMult").

(** [A.Mult(x, y)] *)
Definition Matrix_Mult (o : OpName) (A : HypreParMatrix) (x y : Vec) : Lib Vec :=
  if (length x =? TrueVSize fes) && (length y =? TrueVSize fes)
  then Ok ([EvApply o x], imap (fun i _ => matrix_action A x i) y)
  else Undefined (SizeMismatch "Mult").

(** [A.AddMult(x, y)] *)
Definition Matrix_AddMult (o : OpName) (A : HypreParMatrix) (x y : Vec) : Lib Vec :=
  if (length x =? TrueVSize fes) && (length y =? TrueVSize fes)
  then Ok ([EvApply o x], imap (fun i yi => (yi + matrix_action A x i)%Q) y)
  else Undefined (SizeMismatch "AddMult").

(** [a->FormLinearSystem(ess, x, b, A, X, B)]: [x] and [b] are read, the
    system matrix [A] and the true-dof vectors [X], [B] are produced. *)
Definition FormLinearSystem (o : OpName) (a : ParBilinearForm) (ess : list nat)
    (x b : Vec) : Lib (HypreParMatrix * Vec * Vec) :=
  if (length x =? GetVSize fes) && (length b =? GetVSize fes)
  then Ok ([EvFormLinearSystem o x b],
           (SystemMatrix a ess,
            tabulate (TrueVSize fes) (FormLinearSystem_X fes a ess x b),
            tabulate (TrueVSize fes) (FormLinearSystem_B fes a ess x b)))
  else Undefined (SizeMismatch "FormLinearSystem").

(** [solver.Mult(b, x)]: in iterative mode [x] is the initial guess. *)
Definition CG_Mult (s : SolverName) (solver : CGSolver) (b x : Vec) : Lib Vec :=
  match oper solver with
  | None => Undefined (NullDeref "solver operator")
  | Some A =>
      if length b =? length x
      then let x0 := if iterative_mode solver then x else Fill 0 x in
           Ok ([EvSolve s b x0], imap (fun i _ => cg_action solver A b x0 i) x)
      else Undefined (SizeMismatch "solver")
  end.

Definition PCG_Mult (s : SolverName) (solver : HyprePCG) (b x : Vec) : Lib Vec :=
  if length b =? length x
  then let x0 := if pcg_iterative_mode solver then x else Fill 0 x in
       Ok ([EvSolve s b x0], imap (fun i _ => pcg_action solver b x0 i) x)
  else Undefined (SizeMismatch "solver").
End LibraryCalls.

(** ** class ReducedSystemOperator : public Operator

    The members are those of the class declaration; [KB] is listed with
    them because [Mult] applies it. The pointers [phi], [psi], [w] name the
    views [ImplicitSolve] makes of the start-of-step state. *)

Module ReducedSystemOperator.

Record t := mk
  { height : nat;
    fespace : ParFiniteElementSpace;
    M : option ParBilinearForm; K : option ParBilinearForm;
    KB : option ParBilinearForm;
    DRe : option ParBilinearForm; DSl : option ParBilinearForm;
    Mmat : HypreParMatrix; Kmat : HypreParMatrix;
    Mdt : HypreParMatrix;
    E0Vec : option Vec;
    j0 : option ParGridFunction;
    M_solver : option CGSolver;
    dt : Q;
    phi : option View; psi : option View; w : option View;
    ess_tdof_list : list nat;
    (* mutable *)
    phiGf : ParGridFunction; psiGf : ParGridFunction;
    Nv : option ParBilinearForm; Nb : option ParBilinearForm;
    Jacobian : option HypreParMatrix;
    Mtmp : HypreParMatrix;
    z : Vec; zFull : Vec; Z : Vec; J : Vec }.

(** [SetParameters(dt_, phi_, psi_, w_)] *)
Definition SetParameters (dt_ : Q) (phi_ psi_ w_ : option View) (op : t) : t :=
  {| height := height op; fespace := fespace op; M := M op; K := K op; KB := KB op;
     DRe := DRe op; DSl := DSl op; Mmat := Mmat op; Kmat := Kmat op; Mdt := Mdt op;
     E0Vec := E0Vec op; j0 := j0 op; M_solver := M_solver op;
     dt := dt_; phi := phi_; psi := psi_; w := w_;
     ess_tdof_list := ess_tdof_list op; phiGf := phiGf op; psiGf := psiGf op;
     Nv := Nv op; Nb := Nb op; Jacobian := Jacobian op; Mtmp := Mtmp op;
     z := z op; zFull := zFull op; Z := Z op; J := J op |}.

(** [SetCurrent(gf)] *)
Definition SetCurrent (gf : option ParGridFunction) (op : t) : t :=
  {| height := height op; fespace := fespace op; M := M op; K := K op; KB := KB op;
     DRe := DRe op; DSl := DSl op; Mmat := Mmat op; Kmat := Kmat op; Mdt := Mdt op;
     E0Vec := E0Vec op; j0 := gf; M_solver := M_solver op;
     dt := dt op; phi := phi op; psi := psi op; w := w op;
     ess_tdof_list := ess_tdof_list op; phiGf := phiGf op; psiGf := psiGf op;
     Nv := Nv op; Nb := Nb op; Jacobian := Jacobian op; Mtmp := Mtmp op;
     z := z op; zFull := zFull op; Z := Z op; J := J op |}.

(** The same operator with another forcing vector. *)
Definition with_E0Vec (v : option Vec) (op : t) : t :=
  {| height := height op; fespace := fespace op; M := M op; K := K op; KB := KB op;
     DRe := DRe op; DSl := DSl op; Mmat := Mmat op; Kmat := Kmat op; Mdt := Mdt op;
     E0Vec := v; j0 := j0 op; M_solver := M_solver op;
     dt := dt op; phi := phi op; psi := psi op; w := w op;
     ess_tdof_list := ess_tdof_list op; phiGf := phiGf op; psiGf := psiGf op;
     Nv := Nv op; Nb := Nb op; Jacobian := Jacobian op; Mtmp := Mtmp op;
     z := z op; zFull := zFull op; Z := Z op; J := J op |}.

(** The [mutable] members, as [Mult] leaves them. *)
Definition with_mutable (phiGf' psiGf' : ParGridFunction)
    (Nv' Nb' : option ParBilinearForm) (Mtmp' : HypreParMatrix)
    (z' zFull' Z' J' : Vec) (op : t) : t :=
  {| height := height op; fespace := fespace op; M := M op; K := K op; KB := KB op;
     DRe := DRe op; DSl := DSl op; Mmat := Mmat op; Kmat := Kmat op; Mdt := Mdt op;
     E0Vec := E0Vec op; j0 := j0 op; M_solver := M_solver op;
     dt := dt op; phi := phi op; psi := psi op; w := w op;
     ess_tdof_list := ess_tdof_list op; phiGf := phiGf'; psiGf := psiGf';
     Nv := Nv'; Nb := Nb'; Jacobian := Jacobian op; Mtmp := Mtmp';
     z := z'; zFull := zFull'; Z := Z'; J := J' |}.

Section Methods.
Context `{Library}.
Local Open Scope run_scope.

(** [delete N; gf.MakeTRef(&fespace, k, offset); gf.SetFromTrueVector();
     N = new ParBilinearForm(&fespace); MyCoefficient c(&gf, 2);
     N->AddDomainIntegrator(new ConvectionIntegrator(c)); N->Assemble();] *)
Definition assemble_from (o : OpName) (fes : ParFiniteElementSpace)
    (k : addr) (offset : nat) (gf : ParGridFunction)
  : Run (ParGridFunction * ParBilinearForm) :=
  let gf := MakeTRef fes k offset gf in
  gf <- SetFromTrueVector gf ;;
  let N := new_ParBilinearForm in
  let c := mkMyCoefficient (gf_data gf) 2 in
  let N := AddDomainIntegrator (ConvectionIntegrator c) N in
  let N := Assemble N in
  log (EvAssemble o N) ;;;
  ret (gf, N).

(** [void ReducedSystemOperator::Mult(const Vector &k, Vector &y) const].
    The source writes [psiGF] once for the member [psiGf]. *)
Definition Mult (k y : addr) (op : t) : Run t :=
  let fes := fespace op in
  let ess := ess_tdof_list op in
  let sc := height op / 3 in
  let phiNew := mkView k 0 sc in
  let psiNew := mkView k sc sc in
  let wNew := mkView k (2 * sc) sc in
  let y1 := mkView y 0 sc in
  let y2 := mkView y sc sc in
  let y3 := mkView y (2 * sc) sc in
  (*------assemble Nv and Nb------*)
  r <- assemble_from opNv fes k 0 (phiGf op) ;;
  let '(phiGf, Nv) := r in
  r <- assemble_from opNb fes k sc (psiGf op) ;;
  let '(psiGf, Nb) := r in
  (*------compute the current as an auxilary variable------*)
  KB <- deref "KB" (KB op) ;;
  zFull <- call (Form_Mult fes opKB KB (gf_data psiGf) (zFull op)) ;;
  let zFull := Neg zFull in
  M <- deref "M" (M op) ;;
  j0 <- deref "j0" (j0 op) ;;
  r <- call (FormLinearSystem fes opM M ess (gf_data j0) zFull) ;;
  let '(Mtmp, J, Z) := r in
  M_solver <- deref "M_solver" (M_solver op) ;;
  J <- call (CG_Mult sM_solver M_solver Z J) ;;
  (* compute y1 *)
  x <- read phiNew ;;
  on_view y1 (Matrix_Mult fes opKmat (Kmat op) x) ;;;
  x <- read wNew ;;
  on_view y1 (Matrix_AddMult fes opMmat (Mmat op) x) ;;;
  on_view y1 (SetSubVector ess 0) ;;;
  (* compute y2 *)
  a <- read psiNew ;;
  psi <- deref "psi" (psi op) ;;
  b <- read psi ;;
  z <- call (vec_zip Qminus a b) ;;
  let z := Scale_div (dt op) z in
  on_view y2 (Matrix_Mult fes opMmat (Mmat op) z) ;;;
  x <- read psiNew ;;
  on_view y2 (TrueAddMult fes opNv Nv x) ;;;
  match DSl op with
  | Some DSl => x <- read psiNew ;; on_view y2 (TrueAddMult fes opDSl DSl x)
  | None => ret tt
  end ;;;
  z <- match E0Vec op with
       | Some E0Vec => call (vec_zip Qplus z E0Vec)
       | None => ret z
       end ;;
  on_view y2 (SetSubVector ess 0) ;;;
  (* compute y3 *)
  a <- read wNew ;;
  w <- deref "w" (w op) ;;
  b <- read w ;;
  z <- call (vec_zip Qminus a b) ;;
  let z := Scale_div (dt op) z in
  on_view y3 (Matrix_Mult fes opMmat (Mmat op) z) ;;;
  x <- read wNew ;;
  on_view y3 (TrueAddMult fes opNv Nv x) ;;;
  match DRe op with
  | Some DRe => x <- read wNew ;; on_view y3 (TrueAddMult fes opDRe DRe x)
  | None => ret tt
  end ;;;
  on_view y3 (TrueAddMult fes opNb Nb J) ;;;
  on_view y3 (SetSubVector ess 0) ;;;
  ret (with_mutable phiGf psiGf (Some Nv) (Some Nb) Mtmp z zFull Z J op).
End Methods.

End ReducedSystemOperator.

(** ** The Newton solver, as [ImplicitSolve] calls it

    [pnewton_solver->Mult(rhs, k)] iterates on the reduced operator: it
    leaves the solver with its convergence flag, the reduced operator with
    whatever its last evaluations stored, and the entries of [k]. *)

Record NewtonOut := mkNewtonOut
  { out_solver : PetscNonlinearSolver;
    out_oper : ReducedSystemOperator.t;
    out_k : nat -> Q }.

Class NonlinearSolver := {
  newton_Mult : PetscNonlinearSolver -> ReducedSystemOperator.t ->
                gmap addr Vec -> Vec -> Vec -> NewtonOut
}.

(** ** class ResistiveMHDOperator : public TimeDependentOperator *)

Module ResistiveMHDOperator.

Record t := mk
  { height : nat;
    fespace : ParFiniteElementSpace;
    ess_tdof_list : list nat;
    M : option ParBilinearForm; K : option ParBilinearForm;
    KB : option ParBilinearForm;
    DSl : ParBilinearForm; DRe : ParBilinearForm;
    Nv : option ParBilinearForm; Nb : option ParBilinearForm;
    E0 : option ParLinearForm; Sw : option ParLinearForm;
    Kmat : HypreParMatrix; Mmat : HypreParMatrix;
    E0Vec : option Vec;
    viscosity : Q; resistivity : Q;
    jBdy : option Q;
    useAMG : bool;
    (* for implicit stepping *)
    reduced_oper : option ReducedSystemOperator.t;
    pnewton_solver : option PetscNonlinearSolver;
    M_solver : CGSolver; M_prec : HypreSmoother;
    K_solver : CGSolver; K_prec : HypreSmoother;
    K_amg : option HypreSolver; K_pcg : option HyprePCG;
    j : ParGridFunction;
    (* mutable *)
    z : Vec; zFull : Vec;
    gf : ParGridFunction }.

(** The members that are assigned after construction. *)
Definition with_fields
    (Nv' Nb' : option ParBilinearForm) (E0' : option ParLinearForm)
    (E0Vec' : option Vec) (jBdy' : option Q)
    (reduced_oper' : option ReducedSystemOperator.t)
    (pnewton_solver' : option PetscNonlinearSolver)
    (j' : ParGridFunction) (z' zFull' : Vec) (gf' : ParGridFunction) (op : t) : t :=
  {| height := height op; fespace := fespace op; ess_tdof_list := ess_tdof_list op;
     M := M op; K := K op; KB := KB op; DSl := DSl op; DRe := DRe op;
     Nv := Nv'; Nb := Nb'; E0 := E0'; Sw := Sw op;
     Kmat := Kmat op; Mmat := Mmat op; E0Vec := E0Vec';
     viscosity := viscosity op; resistivity := resistivity op;
     jBdy := jBdy'; useAMG := useAMG op;
     reduced_oper := reduced_oper'; pnewton_solver := pnewton_solver';
     M_solver := M_solver op; M_prec := M_prec op;
     K_solver := K_solver op; K_prec := K_prec op;
     K_amg := K_amg op; K_pcg := K_pcg op;
     j := j'; z := z'; zFull := zFull'; gf := gf' |}.

Definition with_Nv (a : option ParBilinearForm) (op : t) : t :=
  with_fields a (Nb op) (E0 op) (E0Vec op) (jBdy op) (reduced_oper op)
    (pnewton_solver op) (j op) (z op) (zFull op) (gf op) op.
Definition with_Nb (a : option ParBilinearForm) (op : t) : t :=
  with_fields (Nv op) a (E0 op) (E0Vec op) (jBdy op) (reduced_oper op)
    (pnewton_solver op) (j op) (z op) (zFull op) (gf op) op.
Definition with_E0 (l : option ParLinearForm) (v : option Vec) (op : t) : t :=
  with_fields (Nv op) (Nb op) l v (jBdy op) (reduced_oper op)
    (pnewton_solver op) (j op) (z op) (zFull op) (gf op) op.
Definition with_jBdy (c : option Q) (op : t) : t :=
  with_fields (Nv op) (Nb op) (E0 op) (E0Vec op) c (reduced_oper op)
    (pnewton_solver op) (j op) (z op) (zFull op) (gf op) op.
Definition with_implicit (r : option ReducedSystemOperator.t)
    (n : option PetscNonlinearSolver) (op : t) : t :=
  with_fields (Nv op) (Nb op) (E0 op) (E0Vec op) (jBdy op) r n
    (j op) (z op) (zFull op) (gf op) op.
Definition with_j (g : ParGridFunction) (op : t) : t :=
  with_fields (Nv op) (Nb op) (E0 op) (E0Vec op) (jBdy op) (reduced_oper op)
    (pnewton_solver op) g (z op) (zFull op) (gf op) op.
Definition with_scratch (z' zFull' : Vec) (g : ParGridFunction) (op : t) : t :=
  with_fields (Nv op) (Nb op) (E0 op) (E0Vec op) (jBdy op) (reduced_oper op)
    (pnewton_solver op) (j op) z' zFull' g op.

Section Methods.
Context `{Library} `{NonlinearSolver}.
Local Open Scope run_scope.

(** [ResistiveMHDOperator::ResistiveMHDOperator(f, ess_bdr, visc, resi)].
    [reduced_oper] and [pnewton_solver] are not set by the constructor. *)
Definition new (f : ParFiniteElementSpace) (ess_bdr : list BinNums.Z)
    (visc resi : Q) : t :=
  let height := 3 * TrueVSize f in
  let useAMG := false in
  let M_solver := new_CGSolver in
  let K_solver := new_CGSolver in
  let ess_tdof_list := GetEssentialTrueDofs f ess_bdr in
  (* mass matrix *)
  let M := new_ParBilinearForm in
  let M := AddDomainIntegrator MassIntegrator M in
  let M := Assemble M in
  let Mmat := SystemMatrix M ess_tdof_list in
  let M_prec := mkSmoother (Some Jacobi) in
  let M_solver := mkCG true (1 # 1000000000000) 0 2000 0 (Some M_prec) (Some Mmat) in
  (* stiffness matrix *)
  let K := new_ParBilinearForm in
  let K := AddDomainIntegrator (DiffusionIntegrator None) K in
  let K := Assemble K in
  let Kmat := SystemMatrix K ess_tdof_list in
  let useAMG := false in
  let '(K_amg, K_pcg, K_prec, K_solver) :=
    if useAMG
    then
      let K_amg := HypreBoomerAMG Kmat in
      let K_pcg := mkPCG Kmat false (1 # 10000000) 200 0 (Some K_amg) in
      (Some K_amg, Some K_pcg, mkSmoother None, K_solver)
    else
      let K_prec := mkSmoother (Some Chebyshev) in
      (None, None, K_prec,
       mkCG true (1 # 10000000) 0 2000 3 (Some K_prec) (Some Kmat)) in
  let KB := new_ParBilinearForm in
  let KB := AddDomainIntegrator (DiffusionIntegrator None) KB in
  let KB := AddBdrFaceIntegrator BoundaryGradIntegrator KB in
  let KB := Assemble KB in
  let DRe := AddDomainIntegrator (DiffusionIntegrator (Some visc)) new_ParBilinearForm in
  let DRe := Assemble DRe in
  let DSl := AddDomainIntegrator (DiffusionIntegrator (Some resi)) new_ParBilinearForm in
  let DSl := Assemble DSl in
  {| height := height; fespace := f; ess_tdof_list := ess_tdof_list;
     M := Some M; K := Some K; KB := Some KB; DSl := DSl; DRe := DRe;
     Nv := None; Nb := None; E0 := None; Sw := None;
     Kmat := Kmat; Mmat := Mmat; E0Vec := None;
     viscosity := visc; resistivity := resi;
     jBdy := None; useAMG := useAMG;
     reduced_oper := None; pnewton_solver := None;
     M_solver := M_solver; M_prec := M_prec;
     K_solver := K_solver; K_prec := K_prec;
     K_amg := K_amg; K_pcg := K_pcg;
     j := ParGridFunction_on f;
     z := tabulate (height / 3) (fun _ => 0%Q);
     zFull := tabulate (GetVSize f) (fun _ => 0%Q);
     gf := new_ParGridFunction |}.

(** [void BindingGF(Vector &vx)] *)
Definition BindingGF (vx : addr) (op : t) : t :=
  let sc := height op / 3 in
  with_scratch (z op) (zFull op) (MakeTRef (fespace op) vx sc (gf op)) op.

(** [void SetRHSEfield(FunctionCoefficient Efield)] *)
Definition SetRHSEfield (Efield : FunctionCoefficient) (op : t) : t :=
  let E0 := mkLF [Efield] true in
  with_E0 (Some E0)
    (Some (tabulate (TrueVSize (fespace op)) (ParallelAssemble (fespace op) Efield))) op.

(** [void SetInitialJ(FunctionCoefficient initJ)] *)
Definition SetInitialJ (initJ : FunctionCoefficient) (op : t) : Run t :=
  f <- deref "pfes" (gf_fes (j op)) ;;
  let data := imap (fun i _ => ProjectCoefficient f initJ i) (gf_data (j op)) in
  let tv := tabulate (TrueVSize f) (GetTrueDofs f data) in
  ret (with_j (mkGF (gf_fes (j op)) data (Owned tv)) op).

(** [void SetJBdy(double jBdy_)] *)
Definition SetJBdy (jBdy_ : Q) (op : t) : t := with_jBdy (Some jBdy_) op.

(** [void assembleNv(ParGridFunction *gf)] *)
Definition assembleNv (gf : ParGridFunction) (op : t) : Run t :=
  let Nv := new_ParBilinearForm in
  let velocity := mkMyCoefficient (gf_data gf) 2 in
  let Nv := AddDomainIntegrator (ConvectionIntegrator velocity) Nv in
  let Nv := Assemble Nv in
  log (EvAssemble opNv Nv) ;;;
  ret (with_Nv (Some Nv) op).

(** [void assembleNb(ParGridFunction *gf)] *)
Definition assembleNb (gf : ParGridFunction) (op : t) : Run t :=
  let Nb := new_ParBilinearForm in
  let Bfield := mkMyCoefficient (gf_data gf) 2 in
  let Nb := AddDomainIntegrator (ConvectionIntegrator Bfield) Nb in
  let Nb := Assemble Nb in
  log (EvAssemble opNb Nb) ;;;
  ret (with_Nb (Some Nb) op).

(** [void UpdatePhi(Vector &vx)] *)
Definition UpdatePhi (vx : addr) (op : t) : Run t :=
  let fes := fespace op in
  (* Phi=-K^{-1}*M*w *)
  let sc := height op / 3 in
  let phi := mkView vx 0 sc in
  let w := mkView vx (2 * sc) sc in
  x <- read w ;;
  z <- call (Matrix_Mult fes opMmat (Mmat op) x (z op)) ;;
  let z := Neg z in
  z <- call (SetSubVector (ess_tdof_list op) 0 z) ;;
  (if useAMG op
   then K_pcg <- deref "K_pcg" (K_pcg op) ;;
        on_view phi (PCG_Mult sK_pcg K_pcg z)
   else on_view phi (CG_Mult sK_solver (K_solver op) z)) ;;;
  ret (with_scratch z (zFull op) (gf op) op).

(** [void DestroyHypre()]: [delete K_amg;] releases the library object;
    no member changes. *)
Definition DestroyHypre (op : t) : t := op.

(** The current as an auxiliary variable:
    [gf.SetFromTrueVector(); KB->Mult(gf, zFull); zFull.Neg();
     M->FormLinearSystem(ess_tdof_list, j, zFull, A, J, Z);
     M_solver.Mult(Z, J);]
    gives the new [gf] and [zFull] and the local vector [J]. *)
Definition Mult_current (op : t) : Run (ParGridFunction * Vec * Vec) :=
  let fes := fespace op in
  gf <- SetFromTrueVector (gf op) ;;
  KB <- deref "KB" (KB op) ;;
  zFull <- call (Form_Mult fes opKB KB (gf_data gf) (zFull op)) ;;
  let zFull := Neg zFull in
  M <- deref "M" (M op) ;;
  r <- call (FormLinearSystem fes opM M (ess_tdof_list op) (gf_data (j op)) zFull) ;;
  let '(A, J, Z) := r in
  J <- call (CG_Mult sM_solver (M_solver op) Z J) ;;
  ret (gf, zFull, J).

(** [void ResistiveMHDOperator::Mult(const Vector &vx, Vector &dvx_dt) const] *)
Definition Mult (vx dvx_dt : addr) (op : t) : Run t :=
  let fes := fespace op in
  let ess := ess_tdof_list op in
  let sc := height op / 3 in
  d <- read_all dvx_dt ;;
  write_all dvx_dt (Fill 0 d) ;;;
  let phi := mkView vx 0 sc in
  let psi := mkView vx sc sc in
  let w := mkView vx (2 * sc) sc in
  let dphi_dt := mkView dvx_dt 0 sc in
  let dpsi_dt := mkView dvx_dt sc sc in
  let dw_dt := mkView dvx_dt (2 * sc) sc in
  (* compute the current as an auxilary variable *)
  r <- Mult_current op ;;
  let '(gf, zFull, J) := r in
  (* evolve the dofs *)
  let z := Fill 0 (z op) in
  Nv_ <- deref "Nv" (Nv op) ;;
  x <- read psi ;;
  z <- call (TrueAddMult fes opNv Nv_ x z) ;;
  z <- (if negb (Qeq_bool (resistivity op) 0)
        then x <- read psi ;; call (TrueAddMult fes opDSl (DSl op) x z)
        else ret z) ;;
  z <- match E0Vec op with
       | Some E0Vec => call (vec_zip Qplus z E0Vec)
       | None => ret z
       end ;;
  let z := Neg z in
  z <- call (SetSubVector ess 0 z) ;;
  on_view dpsi_dt (CG_Mult sM_solver (M_solver op) z) ;;;
  let z := Fill 0 z in
  Nv_ <- deref "Nv" (Nv op) ;;
  x <- read w ;;
  z <- call (TrueAddMult fes opNv Nv_ x z) ;;
  z <- (if negb (Qeq_bool (viscosity op) 0)
        then x <- read w ;; call (TrueAddMult fes opDRe (DRe op) x z)
        else ret z) ;;
  let z := Neg z in
  Nb_ <- deref "Nb" (Nb op) ;;
  z <- call (TrueAddMult fes opNb Nb_ J z) ;;
  z <- call (SetSubVector ess 0 z) ;;
  on_view dw_dt (CG_Mult sM_solver (M_solver op) z) ;;;
  ret (with_scratch z zFull gf op).

(** [void ImplicitSolve(const double dt, const Vector &vx, Vector &k)], the
    method the class declares; its definition in the source carries the
    qualifier [HyperelasticOperator::]. *)
Definition ImplicitSolve (dt : Q) (vx k : addr) (op : t) : Run t :=
  let sc := height op / 3 in
  let phi := mkView vx 0 sc in
  let psi := mkView vx sc sc in
  let w := mkView vx (2 * sc) sc in
  reduced_oper <- deref "reduced_oper" (reduced_oper op) ;;
  let reduced_oper :=
    ReducedSystemOperator.SetParameters dt (Some phi) (Some psi) (Some w) reduced_oper in
  let zero : Vec := [] in (* empty vector is interpreted as zero r.h.s. *)
  pnewton_solver <- deref "pnewton_solver" (pnewton_solver op) ;;
  k0 <- read_all k ;;
  h <- get_heap ;;
  log (EvNewton zero k0) ;;;
  let out := newton_Mult pnewton_solver reduced_oper h zero k0 in
  write_all k (imap (fun i _ => out_k out i) k0) ;;;  (* k is solved as vx^{n+1} *)
  MFEM_VERIFY (converged (out_solver out)) "Newton solver did not converge." ;;;
  (* modify k so that it fits into the backward euler framework *)
  a <- read_all k ;;
  b <- read_all vx ;;
  a <- call (vec_zip Qminus a b) ;;
  write_all k a ;;;
  a <- read_all k ;;
  write_all k (Scale_div dt a) ;;;
  ret (with_implicit (Some (out_oper out)) (Some (out_solver out)) op).
End Methods.

End ResistiveMHDOperator.

(** ** A small concrete library, to run the operators on examples

    Two degrees of freedom per field, no constraint between local and true
    dofs; every assembled form acts as a multiple of the identity, the
    multiple being the sum of its integrators' weights; eliminated rows of
    a system matrix act as the identity. *)

Module Toy.
Local Open Scope Q_scope.

Definition fes : ParFiniteElementSpace := mkFES 2 2.

Definition weight (i : Integrator) : Q :=
  match i with
  | MassIntegrator => 1
  | DiffusionIntegrator None => 2
  | DiffusionIntegrator (Some c) => c
  | BoundaryGradIntegrator => 1
  | ConvectionIntegrator c => nth 0 (coef_gf c) 0
  end.

Definition form_weight (a : ParBilinearForm) : Q :=
  foldr Qplus 0 (map weight (dbfi a ++ bfbfi a)).

Definition is_ess (ess : list nat) (i : nat) : bool := existsb (Nat.eqb i) ess.

Definition entry (v : Vec) (i : nat) : Q := nth i v 0.

#[global] Instance library : Library := {|
  GetEssentialTrueDofs := fun _ ess_bdr => if ess_bdr is [] then [] else [0%nat];
  Distribute := fun _ tv i => entry tv i;
  GetTrueDofs := fun _ v i => entry v i;
  ProjectCoefficient := fun _ c i => c [inject_Z (Z.of_nat i)];
  ParallelAssemble := fun _ c i => c [inject_Z (Z.of_nat i)];
  form_action := fun _ a x i => form_weight a * entry x i;
  form_true_action := fun _ a x i => form_weight a * entry x i;
  matrix_action := fun A x i =>
    match A with
    | EmptyMatrix => 0
    | SystemMatrix a ess =>
        if is_ess ess i then entry x i else form_weight a * entry x i
    end;
  FormLinearSystem_X := fun _ _ ess x _ i => if is_ess ess i then entry x i else 0;
  FormLinearSystem_B := fun _ _ ess x b i => if is_ess ess i then entry x i else entry b i;
  cg_action := fun _ _ b _ i => entry b i;
  pcg_action := fun _ b _ i => entry b i;
  quotient := Qdiv;
  quotient_nonzero := fun a c _ => Qeq_refl (a / c)
|}.

(** A Newton solver that reports convergence and returns [k0 + 1]. *)
Definition newton : NonlinearSolver := {|
  newton_Mult := fun _ r _ _ k0 =>
    mkNewtonOut (mkNewton true) r (fun i => entry k0 i + 1)
|}.

(** A Newton solver that gives up. *)
Definition stalled_newton : NonlinearSolver := {|
  newton_Mult := fun _ r _ _ k0 => mkNewtonOut (mkNewton false) r (entry k0)
|}.

(** An operator as the constructor leaves it, one essential dof. *)
Definition fresh : ResistiveMHDOperator.t :=
  ResistiveMHDOperator.new fes [1%Z] (1 # 2) (1 # 4).

(** The state vector at address 0, the output at address 1. *)
Definition world (vx out : Vec) : World :=
  mkWorld (<[1%nat := out]> (<[0%nat := vx]> ∅)) [].

Definition vx0 : Vec := [1; 2; 3; 4; 5; 6].
Definition out0 : Vec := [7; 7; 7; 7; 7; 7].

(** An operator after [BindingGF(vx)], [assembleNv], [assembleNb]. *)
Definition ready (op : ResistiveMHDOperator.t) (w : World)
  : Result ResistiveMHDOperator.t * World :=
  let op := ResistiveMHDOperator.BindingGF 0%nat op in
  bind (ResistiveMHDOperator.assembleNv (mkGF (Some fes) [1; 1] (Owned [])) op)
       (ResistiveMHDOperator.assembleNb (mkGF (Some fes) [3; 3] (Owned []))) w.

(** A reduced operator over the forms of [fresh], with a forcing vector,
    its start-of-step state being the vector at address 2. *)
Definition reduced (forcing : option Vec) : ReducedSystemOperator.t :=
  {| ReducedSystemOperator.height := 6;
     ReducedSystemOperator.fespace := fes;
     ReducedSystemOperator.M := ResistiveMHDOperator.M fresh;
     ReducedSystemOperator.K := ResistiveMHDOperator.K fresh;
     ReducedSystemOperator.KB := ResistiveMHDOperator.KB fresh;
     ReducedSystemOperator.DRe := Some (ResistiveMHDOperator.DRe fresh);
     ReducedSystemOperator.DSl := Some (ResistiveMHDOperator.DSl fresh);
     ReducedSystemOperator.Mmat := ResistiveMHDOperator.Mmat fresh;
     ReducedSystemOperator.Kmat := ResistiveMHDOperator.Kmat fresh;
     ReducedSystemOperator.Mdt := EmptyMatrix;
     ReducedSystemOperator.E0Vec := forcing;
     ReducedSystemOperator.j0 := Some (ResistiveMHDOperator.j fresh);
     ReducedSystemOperator.M_solver := Some (ResistiveMHDOperator.M_solver fresh);
     ReducedSystemOperator.dt := 1 # 2;
     ReducedSystemOperator.phi := Some (mkView 2 0 2);
     ReducedSystemOperator.psi := Some (mkView 2 2 2);
     ReducedSystemOperator.w := Some (mkView 2 4 2);
     ReducedSystemOperator.ess_tdof_list := [0%nat];
     ReducedSystemOperator.phiGf := new_ParGridFunction;
     ReducedSystemOperator.psiGf := new_ParGridFunction;
     ReducedSystemOperator.Nv := None;
     ReducedSystemOperator.Nb := None;
     ReducedSystemOperator.Jacobian := None;
     ReducedSystemOperator.Mtmp := EmptyMatrix;
     ReducedSystemOperator.z := [0; 0];
     ReducedSystemOperator.zFull := [0; 0];
     ReducedSystemOperator.Z := [];
     ReducedSystemOperator.J := [] |}.

(** The iterate at address 0, the residual at address 1, the
    start-of-step state at address 2. *)
Definition newton_world (k y vx : Vec) : World :=
  mkWorld (<[2%nat := vx]> (<[1%nat := y]> (<[0%nat := k]> ∅))) [].

Definition k0 : Vec := [1; 2; 3; 4; 5; 6].
Definition state0 : Vec := [1; 1; 1; 1; 1; 1].

(** The operator and the world after the setup calls. *)
Definition ready_op : ResistiveMHDOperator.t :=
  match fst (ready fresh (world vx0 out0)) with Ok op => op | _ => fresh end.
Definition ready_world : World := snd (ready fresh (world vx0 out0)).

(** One explicit evaluation. *)
Definition explicit_run : Result ResistiveMHDOperator.t * World :=
  ResistiveMHDOperator.Mult 0%nat 1%nat ready_op ready_world.
Definition explicit_op : ResistiveMHDOperator.t :=
  match fst explicit_run with Ok op => op | _ => fresh end.

(** The same with zero viscosity and zero resistivity. *)
Definition ideal : ResistiveMHDOperator.t :=
  ResistiveMHDOperator.new fes [1%Z] 0 0.
Definition ideal_op : ResistiveMHDOperator.t :=
  match fst (ready ideal (world vx0 out0)) with Ok op => op | _ => ideal end.
Definition ideal_run : Result ResistiveMHDOperator.t * World :=
  ResistiveMHDOperator.Mult 0%nat 1%nat ideal_op ready_world.

(** One evaluation of the reduced residual, with and without forcing. *)
Definition forcing : Vec := [5; 5].
Definition residual_run (f : option Vec) : Result ReducedSystemOperator.t * World :=
  ReducedSystemOperator.Mult 0%nat 1%nat (reduced f) (newton_world k0 out0 state0).
Definition residual_op (f : option Vec) : ReducedSystemOperator.t :=
  match fst (residual_run f) with Ok op => op | _ => reduced f end.

(** One potential recovery, on the operator as constructed. *)
Definition update_run : Result ResistiveMHDOperator.t * World :=
  ResistiveMHDOperator.UpdatePhi 0%nat fresh (world vx0 out0).
Definition update_op : ResistiveMHDOperator.t :=
  match fst update_run with Ok op => op | _ => fresh end.

(** [ready_op] with a reduced operator and a Newton solver attached. *)
Definition implicit_op : ResistiveMHDOperator.t :=
  ResistiveMHDOperator.with_implicit (Some (reduced None)) (Some (mkNewton false))
    ready_op.
End Toy.

(** ** Vocabulary of the statements below *)

(** A step that leaves the caller's vectors as they are. *)
Definition keeps_heap {A} (m : Run A) : Prop :=
  forall w a w', m w = (Ok a, w') -> heap w' = heap w.

(** A step that cannot end in a diagnosed failure. *)
Definition never_aborts {A} (m : Run A) : Prop :=
  forall w msg w', m w <> (Abort msg, w').

Definition lib_never_aborts {A} (m : Lib A) : Prop := forall msg, m <> Abort msg.

(** The rows [ess] of the block at offset [off] of the vector at [y] are zero. *)
Definition rows_zero (h : gmap addr Vec) (y off : nat) (ess : list nat) : Prop :=
  exists d, h !! y = Some d /\ forall i, i ∈ ess -> d !! (off + i) = Some 0%Q.

(** The block of the vector at [y] that starts at offset [off] holds [X]. *)
Definition block_is (h : gmap addr Vec) (y off : nat) (X : Vec) : Prop :=
  exists d, h !! y = Some d /\ off + length X <= length d /\
            slice off (length X) d = X.

(** Two heaps that agree on every vector but the one at [y]. *)
Definition same_except (h h0 : gmap addr Vec) (y : addr) : Prop :=
  forall a, a <> y -> h !! a = h0 !! a.

(** [tv] is the true-dof vector of [gf], read through its reference. *)
Definition tvec_in (h : gmap addr Vec) (gf : ParGridFunction) (tv : Vec) : Prop :=
  match t_vec gf with
  | Owned v => tv = v
  | Ref v => exists d, h !! v_base v = Some d /\ v_off v + v_len v <= length d /\
                       tv = slice (v_off v) (v_len v) d
  end.

Definition events_if (c : bool) (e : list Event) : list Event := if c then e else [].

(** The events a run adds to the trace. *)
Definition new_events (w w' : World) : list Event := drop (length (trace w)) (trace w').

(** The convection form built on the local dofs [d] of a grid function. *)
Definition convection_form (d : Vec) : ParBilinearForm :=
  Assemble (AddDomainIntegrator (ConvectionIntegrator (mkMyCoefficient d 2))
              new_ParBilinearForm).

Section ExplicitValues.
Context `{Library}.
Import ResistiveMHDOperator.
Variable op : t.
Let fes := fespace op.
Let ess := ess_tdof_list op.

(** What [Mult] hands to [FormLinearSystem]: [-(K-B)] applied to the grid
    function that [gf] holds for the true-dof vector [tv]. *)
Definition explicit_current_rhs (f : ParFiniteElementSpace) (KB_ : ParBilinearForm)
    (tv : Vec) : Vec :=
  Neg (imap (fun i _ => form_action fes KB_
                          (tabulate (GetVSize f) (Distribute f tv)) i) (zFull op)).

(** The right-hand side and the initial guess of the current solve. *)
Definition explicit_current_B (M_ : ParBilinearForm) (b : Vec) : Vec :=
  tabulate (TrueVSize fes) (FormLinearSystem_B fes M_ ess (gf_data (j op)) b).
Definition explicit_current_X (M_ : ParBilinearForm) (b : Vec) : Vec :=
  tabulate (TrueVSize fes) (FormLinearSystem_X fes M_ ess (gf_data (j op)) b).

Definition guess (solver : CGSolver) (x : Vec) : Vec :=
  if iterative_mode solver then x else Fill 0 x.

Definition solution (solver : CGSolver) (A : HypreParMatrix) (b x : Vec) : Vec :=
  imap (fun i _ => cg_action solver A b (guess solver x) i) x.

(** The local vector [J]. *)
Definition explicit_current (A : HypreParMatrix) (M_ : ParBilinearForm) (b : Vec) : Vec :=
  solution (M_solver op) A (explicit_current_B M_ b) (explicit_current_X M_ b).

(** The vector [z] handed to the mass solve for [dpsi_dt]. *)
Definition explicit_flux_rhs (Nv_ : ParBilinearForm) (psi : Vec) : Vec :=
  let z := Fill 0 (z op) in
  let z := imap (fun i zi => (zi + form_true_action fes Nv_ psi i)%Q) z in
  let z := if negb (Qeq_bool (resistivity op) 0)
           then imap (fun i zi => (zi + form_true_action fes (DSl op) psi i)%Q) z
           else z in
  let z := match E0Vec op with Some E0Vec => zip_with Qplus z E0Vec | None => z end in
  SetSubVector_list ess 0 (Neg z).

(** The vector [z] handed to the mass solve for [dw_dt]; [z0] is [z] as
    the flux part left it. *)
Definition explicit_vorticity_rhs (z0 : Vec) (Nv_ Nb_ : ParBilinearForm) (w J : Vec) : Vec :=
  let z := Fill 0 z0 in
  let z := imap (fun i zi => (zi + form_true_action fes Nv_ w i)%Q) z in
  let z := if negb (Qeq_bool (viscosity op) 0)
           then imap (fun i zi => (zi + form_true_action fes (DRe op) w i)%Q) z
           else z in
  let z := Neg z in
  let z := imap (fun i zi => (zi + form_true_action fes Nb_ J i)%Q) z in
  SetSubVector_list ess 0 z.
End ExplicitValues.

Section ResidualValues.
Context `{Library}.
Import ReducedSystemOperator.

(** The flux residual as the specification words it:
    [M (psiNew - psi)/dt + Nv psiNew + DSl psiNew + forcing], rows zeroed
    on the essential dofs. *)
Definition y2_spec (op : t) (Nv_ : ParBilinearForm) (psiNew psi_ : Vec) : Vec :=
  let fes := fespace op in
  let zd := Scale_div (dt op) (zip_with Qminus psiNew psi_) in
  let diffusion i :=
    match DSl op with Some D => form_true_action fes D psiNew i | None => 0%Q end in
  let forcing i :=
    match E0Vec op with Some E => nth i E 0%Q | None => 0%Q end in
  SetSubVector_list (ess_tdof_list op) 0
    (tabulate (height op / 3)
       (fun i => (matrix_action (Mmat op) zd i + form_true_action fes Nv_ psiNew i
                  + diffusion i + forcing i)%Q)).
End ResidualValues.

(** The states an operator can be in: as constructed, then after any of
    its public methods has returned. *)
Inductive reachable `{Library} `{NonlinearSolver} : ResistiveMHDOperator.t -> Prop :=
| reach_new f ess_bdr visc resi :
    reachable (ResistiveMHDOperator.new f ess_bdr visc resi)
| reach_BindingGF vx op :
    reachable op -> reachable (ResistiveMHDOperator.BindingGF vx op)
| reach_SetRHSEfield Efield op :
    reachable op -> reachable (ResistiveMHDOperator.SetRHSEfield Efield op)
| reach_SetJBdy jBdy_ op :
    reachable op -> reachable (ResistiveMHDOperator.SetJBdy jBdy_ op)
| reach_DestroyHypre op :
    reachable op -> reachable (ResistiveMHDOperator.DestroyHypre op)
| reach_SetInitialJ initJ op w op' w' :
    reachable op -> ResistiveMHDOperator.SetInitialJ initJ op w = (Ok op', w') ->
    reachable op'
| reach_assembleNv gf op w op' w' :
    reachable op -> ResistiveMHDOperator.assembleNv gf op w = (Ok op', w') ->
    reachable op'
| reach_assembleNb gf op w op' w' :
    reachable op -> ResistiveMHDOperator.assembleNb gf op w = (Ok op', w') ->
    reachable op'
| reach_UpdatePhi vx op w op' w' :
    reachable op -> ResistiveMHDOperator.UpdatePhi vx op w = (Ok op', w') ->
    reachable op'
| reach_Mult vx dvx_dt op w op' w' :
    reachable op -> ResistiveMHDOperator.Mult vx dvx_dt op w = (Ok op', w') ->
    reachable op'
| reach_ImplicitSolve dt vx k op w op' w' :
    reachable op -> ResistiveMHDOperator.ImplicitSolve dt vx k op w = (Ok op', w') ->
    reachable op'.

(** ** Vocabulary of the statements on returning runs and sizes *)

(** A run that returns, and what it returns. *)
Definition returns {A} (m : Run A) (w : World) (P : A -> World -> Prop) : Prop :=
  exists a w', m w = (Ok a, w') /\ P a w'.


(** [h] holds every vector of [h0], each with the length it has in [h0]. *)
Definition sized (h0 h : gmap addr Vec) : Prop :=
  forall a d0, h0 !! a = Some d0 -> exists d, h !! a = Some d /\ length d = length d0.

(** * Facts *)

(** ** Vectors *)

Section VectorFacts.
Implicit Types (v x d : Vec) (i n off len : nat) (c : Q).

Lemma length_tabulate n f : length (tabulate n f) = n.
Proof. unfold tabulate. by rewrite length_fmap, length_seq. Qed.

Lemma lookup_tabulate n f i : i < n -> tabulate n f !! i = Some (f i).
Proof.
  intros Hi. unfold tabulate. rewrite list_lookup_fmap, lookup_seq_lt by done.
  done.
Qed.

Lemma length_Fill c v : length (Fill c v) = length v.
Proof. apply length_fmap. Qed.

Lemma lookup_Fill c v i : i < length v -> Fill c v !! i = Some c.
Proof.
  intros Hi. unfold Fill. rewrite list_lookup_fmap.
  destruct (lookup_lt_is_Some_2 v i Hi) as [a ->]. done.
Qed.

Lemma Fill_replicate c v : Fill c v = replicate (length v) c.
Proof. induction v as [|a v IH]; simpl; [done | by rewrite IH]. Qed.


Lemma length_SetSubVector_list dofs c v :
  length (SetSubVector_list dofs c v) = length v.
Proof.
  unfold SetSubVector_list. revert v.
  induction dofs as [|k dofs IH]; intros v; simpl; [done|].
  by rewrite IH, length_insert.
Qed.

Lemma lookup_SetSubVector_list_notin dofs c v i :
  i ∉ dofs -> SetSubVector_list dofs c v !! i = v !! i.
Proof.
  unfold SetSubVector_list. revert v.
  induction dofs as [|k dofs IH]; intros v Hi; simpl; [done|].
  apply not_elem_of_cons in Hi as [Hk Hi].
  rewrite IH by done. by apply list_lookup_insert_ne.
Qed.

Lemma lookup_SetSubVector_list_in dofs c v i :
  i ∈ dofs -> i < length v -> SetSubVector_list dofs c v !! i = Some c.
Proof.
  unfold SetSubVector_list. revert v.
  induction dofs as [|k dofs IH]; intros v Hi Hlen; simpl.
  - by apply elem_of_nil in Hi.
  - destruct (decide (i ∈ dofs)) as [Hin|Hnin].
    + apply IH; [done | by rewrite length_insert].
    + apply elem_of_cons in Hi as [->|Hi]; [|done].
      fold (SetSubVector_list dofs c (<[k:=c]> v)).
      rewrite lookup_SetSubVector_list_notin by done.
      by apply list_lookup_insert_eq.
Qed.

Lemma in_range_spec n dofs : in_range n dofs = true <-> forall i, i ∈ dofs -> i < n.
Proof.
  unfold in_range. rewrite forallb_forall. split.
  - intros Hall i Hi. apply Nat.ltb_lt, Hall. by apply list_elem_of_In.
  - intros Hall i Hi. apply Nat.ltb_lt, Hall. by apply list_elem_of_In.
Qed.

Lemma length_slice off len d : off + len <= length d -> length (slice off len d) = len.
Proof. intros Hle. unfold slice. rewrite length_take, length_drop. lia. Qed.

Lemma lookup_slice off len d i :
  i < len -> slice off len d !! i = d !! (off + i).
Proof. intros Hi. unfold slice. by rewrite lookup_take_lt, lookup_drop. Qed.

Lemma length_splice off x d :
  off + length x <= length d -> length (splice off x d) = length d.
Proof.
  intros Hle. unfold splice.
  rewrite !length_app, length_take, length_drop. lia.
Qed.

Lemma lookup_splice_in off x d i :
  off + length x <= length d -> off <= i < off + length x ->
  splice off x d !! i = x !! (i - off).
Proof.
  intros Hle Hi. unfold splice.
  rewrite lookup_app_r by (rewrite length_take; lia).
  rewrite length_take, Nat.min_l by lia.
  by rewrite lookup_app_l by lia.
Qed.

Lemma lookup_splice_out off x d i :
  off + length x <= length d -> i < off \/ off + length x <= i ->
  splice off x d !! i = d !! i.
Proof.
  intros Hle Hi. unfold splice. destruct Hi as [Hi|Hi].
  - rewrite lookup_app_l by (rewrite length_take; lia).
    by rewrite lookup_take_lt.
  - rewrite lookup_app_r by (rewrite length_take; lia).
    rewrite length_take, Nat.min_l by lia.
    rewrite lookup_app_r by lia.
    rewrite lookup_drop. f_equal. lia.
Qed.

Lemma slice_splice_same off x d :
  off + length x <= length d -> slice off (length x) (splice off x d) = x.
Proof.
  intros Hle. unfold slice, splice.
  rewrite drop_app_length' by (rewrite length_take; lia).
  by rewrite take_app_length.
Qed.

Lemma slice_ext off len d d' :
  (forall i, i < len -> d !! (off + i) = d' !! (off + i)) ->
  slice off len d = slice off len d'.
Proof.
  intros Hext. apply list_eq. intros i.
  destruct (decide (i < len)) as [Hi|Hi].
  - rewrite !lookup_slice by done. by apply Hext.
  - unfold slice. by rewrite !lookup_take_ge by lia.
Qed.

Lemma slice_splice_out off x d off' len :
  off + length x <= length d -> off' + len <= off \/ off + length x <= off' ->
  slice off' len (splice off x d) = slice off' len d.
Proof.
  intros Hle Hdisj. apply slice_ext. intros i Hi.
  apply lookup_splice_out; [done | lia].
Qed.

Lemma slice_Fill off len c d :
  off + len <= length d -> slice off len (Fill c d) = replicate len c.
Proof.
  intros Hle. unfold slice.
  rewrite Fill_replicate, drop_replicate, take_replicate. f_equal. lia.
Qed.
End VectorFacts.

(** ** Runs: what a successful step tells *)

Section RunFacts.
Context {A B : Type}.

Lemma bind_Ok (m : Run A) (f : A -> Run B) w b w' :
  bind m f w = (Ok b, w') ->
  exists a w1, m w = (Ok a, w1) /\ f a w1 = (Ok b, w').
Proof.
  unfold bind. destruct (m w) as [[a|s|u] w1]; intros Heq; try discriminate.
  by exists a, w1.
Qed.

Lemma ret_Ok (a b : A) w w' : ret a w = (Ok b, w') -> b = a /\ w' = w.
Proof. unfold ret. intros [= -> ->]. done. Qed.

Lemma deref_Ok what (p : option A) a w w' :
  deref what p w = (Ok a, w') -> p = Some a /\ w' = w.
Proof. destruct p; simpl; unfold ret, undefined; intros [= -> ->]; done. Qed.

Lemma call_Ok (m : Lib A) a w w' :
  call m w = (Ok a, w') ->
  exists es, m = Ok (es, a) /\ heap w' = heap w /\ trace w' = trace w ++ es.
Proof.
  unfold call. destruct m as [[es a']|s|u]; intros [= <- <-]. by exists es.
Qed.
End RunFacts.

Lemma check_Ok c u x w w' : check c u w = (Ok x, w') -> c = true /\ w' = w.
Proof.
  destruct c; simpl; unfold ret, undefined; intros Heq; [|discriminate].
  by injection Heq as _ <-.
Qed.

Lemma MFEM_VERIFY_Ok c msg x w w' :
  MFEM_VERIFY c msg w = (Ok x, w') -> c = true /\ w' = w.
Proof.
  unfold MFEM_VERIFY. destruct c; intros Heq; [|discriminate].
  by injection Heq as _ <-.
Qed.

Lemma log_Ok e x w w' :
  log e w = (Ok x, w') -> heap w' = heap w /\ trace w' = trace w ++ [e].
Proof. unfold log. intros Heq. by injection Heq as _ <-. Qed.

Lemma get_heap_Ok h w w' : get_heap w = (Ok h, w') -> h = heap w /\ w' = w.
Proof. unfold get_heap. intros [= <- <-]. done. Qed.

Lemma read_all_Ok a d w w' :
  read_all a w = (Ok d, w') -> heap w !! a = Some d /\ w' = w.
Proof.
  unfold read_all. destruct (heap w !! a); intros [= <- <-]; done.
Qed.

Lemma write_all_Ok a x u w w' :
  write_all a x w = (Ok u, w') ->
  heap w' = <[a := x]> (heap w) /\ trace w' = trace w.
Proof. unfold write_all. intros Heq. by injection Heq as _ <-. Qed.

Lemma read_Ok v x w w' :
  read v w = (Ok x, w') ->
  w' = w /\
  exists d, heap w !! v_base v = Some d /\ v_off v + v_len v <= length d /\
            x = slice (v_off v) (v_len v) d.
Proof.
  unfold read. intros Hrun.
  apply bind_Ok in Hrun as (d & w1 & Hd & Hrun).
  apply read_all_Ok in Hd as [Hd ->].
  apply bind_Ok in Hrun as ([] & w2 & Hc & Hrun).
  apply check_Ok in Hc as [Hc ->].
  apply ret_Ok in Hrun as [-> ->].
  split; [done|]. exists d. by apply Nat.leb_le in Hc.
Qed.

Lemma write_Ok v x u w w' :
  write v x w = (Ok u, w') ->
  exists d, heap w !! v_base v = Some d /\ v_off v + v_len v <= length d /\
            length x = v_len v /\
            heap w' = <[v_base v := splice (v_off v) x d]> (heap w) /\
            trace w' = trace w.
Proof.
  unfold write. intros Hrun.
  apply bind_Ok in Hrun as (d & w1 & Hd & Hrun).
  apply read_all_Ok in Hd as [Hd ->].
  apply bind_Ok in Hrun as ([] & w2 & Hc & Hrun).
  apply check_Ok in Hc as [Hc ->].
  apply bind_Ok in Hrun as ([] & w3 & Hc' & Hrun).
  apply check_Ok in Hc' as [Hc' ->].
  apply write_all_Ok in Hrun as [Hh Ht].
  exists d. apply Nat.leb_le in Hc. apply Nat.eqb_eq in Hc'. done.
Qed.

Lemma on_view_Ok v f u w w' :
  on_view v f w = (Ok u, w') ->
  exists d es y',
    heap w !! v_base v = Some d /\ v_off v + v_len v <= length d /\
    f (slice (v_off v) (v_len v) d) = Ok (es, y') /\ length y' = v_len v /\
    heap w' = <[v_base v := splice (v_off v) y' d]> (heap w) /\
    trace w' = trace w ++ es.
Proof.
  unfold on_view. intros Hrun.
  apply bind_Ok in Hrun as (y & w1 & Hy & Hrun).
  apply read_Ok in Hy as [-> (d & Hd & Hle & ->)].
  apply bind_Ok in Hrun as (y' & w2 & Hf & Hrun).
  apply call_Ok in Hf as (es & Hf & Hh & Ht).
  apply write_Ok in Hrun as (d' & Hd' & _ & Hlen & Hh' & Ht').
  rewrite Hh, Hd in Hd'. injection Hd' as <-.
  exists d, es, y'. rewrite Hh', Ht', Hh, Ht. done.
Qed.

(** ** Library calls: what a successful call tells *)

Lemma SetSubVector_Ok dofs c y es y' :
  SetSubVector dofs c y = Ok (es, y') ->
  es = [] /\ y' = SetSubVector_list dofs c y /\ forall i, i ∈ dofs -> i < length y.
Proof.
  unfold SetSubVector. destruct (in_range _ _) eqn:Hr; intros [= <- <-].
  pose proof (proj1 (in_range_spec _ _) Hr). done.
Qed.

Lemma vec_zip_Ok f a b es r :
  vec_zip f a b = Ok (es, r) ->
  es = [] /\ r = zip_with f a b /\ length a = length b.
Proof.
  unfold vec_zip. destruct (_ =? _) eqn:Hl; intros [= <- <-].
  by apply Nat.eqb_eq in Hl.
Qed.

Section LibraryFacts.
Context `{Library}.
Variable fes : ParFiniteElementSpace.

Lemma length_Scale_div c v : length (Scale_div c v) = length v.
Proof. apply length_fmap. Qed.

Lemma lookup_Scale_div c v i :
  Scale_div c v !! i = (fun a => quotient a c) <$> v !! i.
Proof. apply list_lookup_fmap. Qed.

Lemma both_eqb a b n :
  (a =? n) && (b =? n) = true -> a = n /\ b = n.
Proof. intros [?%Nat.eqb_eq ?%Nat.eqb_eq]%andb_true_iff. done. Qed.

Lemma Form_Mult_Ok o a x y es y' :
  Form_Mult fes o a x y = Ok (es, y') ->
  es = [EvApply o x] /\ y' = imap (fun i _ => form_action fes a x i) y /\
  length x = GetVSize fes /\ length y = GetVSize fes.
Proof.
  unfold Form_Mult. destruct (_ && _) eqn:Hl; intros [= <- <-].
  by apply both_eqb in Hl as [].
Qed.

Lemma TrueAddMult_Ok o a x y es y' :
  TrueAddMult fes o a x y = Ok (es, y') ->
  es = [EvApply o x] /\
  y' = imap (fun i yi => (yi + form_true_action fes a x i)%Q) y /\
  length x = TrueVSize fes /\ length y = TrueVSize fes.
Proof.
  unfold TrueAddMult. destruct (_ && _) eqn:Hl; intros [= <- <-].
  by apply both_eqb in Hl as [].
Qed.

Lemma Matrix_Mult_Ok o A x y es y' :
  Matrix_Mult fes o A x y = Ok (es, y') ->
  es = [EvApply o x] /\ y' = imap (fun i _ => matrix_action A x i) y /\
  length x = TrueVSize fes /\ length y = TrueVSize fes.
Proof.
  unfold Matrix_Mult. destruct (_ && _) eqn:Hl; intros [= <- <-].
  by apply both_eqb in Hl as [].
Qed.

Lemma Matrix_AddMult_Ok o A x y es y' :
  Matrix_AddMult fes o A x y = Ok (es, y') ->
  es = [EvApply o x] /\
  y' = imap (fun i yi => (yi + matrix_action A x i)%Q) y /\
  length x = TrueVSize fes /\ length y = TrueVSize fes.
Proof.
  unfold Matrix_AddMult. destruct (_ && _) eqn:Hl; intros [= <- <-].
  by apply both_eqb in Hl as [].
Qed.

Lemma FormLinearSystem_Ok o a ess x b es r :
  FormLinearSystem fes o a ess x b = Ok (es, r) ->
  es = [EvFormLinearSystem o x b] /\
  r = (SystemMatrix a ess,
       tabulate (TrueVSize fes) (FormLinearSystem_X fes a ess x b),
       tabulate (TrueVSize fes) (FormLinearSystem_B fes a ess x b)) /\
  length x = GetVSize fes /\ length b = GetVSize fes.
Proof.
  unfold FormLinearSystem. destruct (_ && _) eqn:Hl; intros [= <- <-].
  by apply both_eqb in Hl as [].
Qed.

Lemma CG_Mult_Ok s solver b x es x' :
  CG_Mult s solver b x = Ok (es, x') ->
  exists A, oper solver = Some A /\ length b = length x /\
    es = [EvSolve s b (if iterative_mode solver then x else Fill 0 x)] /\
    x' = imap (fun i _ => cg_action solver A b
                 (if iterative_mode solver then x else Fill 0 x) i) x.
Proof.
  unfold CG_Mult. destruct (oper solver) as [A|]; [|done].
  destruct (_ =? _) eqn:Hl; intros [= <- <-].
  exists A. by apply Nat.eqb_eq in Hl.
Qed.

Lemma PCG_Mult_Ok s solver b x es x' :
  PCG_Mult s solver b x = Ok (es, x') ->
  length b = length x /\
  es = [EvSolve s b (if pcg_iterative_mode solver then x else Fill 0 x)] /\
  x' = imap (fun i _ => pcg_action solver b
               (if pcg_iterative_mode solver then x else Fill 0 x) i) x.
Proof.
  unfold PCG_Mult. destruct (_ =? _) eqn:Hl; intros [= <- <-].
  by apply Nat.eqb_eq in Hl.
Qed.
End LibraryFacts.

Section GridFunctionFacts.
Context `{Library}.

Lemma read_t_vec_Ok gf tv w w' :
  read_t_vec gf w = (Ok tv, w') -> w' = w /\ tvec_in (heap w) gf tv.
Proof.
  unfold read_t_vec, tvec_in. destruct (t_vec gf) as [v|v].
  - by intros [-> ->]%ret_Ok.
  - intros [-> (d & Hd & Hle & ->)]%read_Ok. eauto.
Qed.

Lemma SetFromTrueVector_Ok gf gf' w w' :
  SetFromTrueVector gf w = (Ok gf', w') ->
  exists f tv,
    gf_fes gf = Some f /\ tvec_in (heap w) gf tv /\
    length tv = TrueVSize f /\
    gf' = mkGF (gf_fes gf) (tabulate (GetVSize f) (Distribute f tv)) (t_vec gf) /\
    heap w' = heap w /\ trace w' = trace w ++ [EvDistribute tv].
Proof.
  unfold SetFromTrueVector. intros Hrun.
  apply bind_Ok in Hrun as (f & w1 & Hf & Hrun).
  apply deref_Ok in Hf as [Hf ->].
  apply bind_Ok in Hrun as (tv & w2 & Htv & Hrun).
  apply read_t_vec_Ok in Htv as [-> Htv].
  apply bind_Ok in Hrun as ([] & w3 & Hc & Hrun).
  apply check_Ok in Hc as [Hc ->].
  apply bind_Ok in Hrun as ([] & w4 & Hl & Hrun).
  apply log_Ok in Hl as [Hh Ht].
  apply ret_Ok in Hrun as [-> ->].
  exists f, tv. apply Nat.eqb_eq in Hc. done.
Qed.
End GridFunctionFacts.

(** ** Steps that leave the caller's vectors alone *)

Section KeepsHeap.
Context {A B : Type}.

Lemma keeps_ret (a : A) : keeps_heap (ret a).
Proof. intros w b w' [_ ->]%ret_Ok. done. Qed.

Lemma keeps_deref what (p : option A) : keeps_heap (deref what p).
Proof. intros w b w' [_ ->]%deref_Ok. done. Qed.

Lemma keeps_call (m : Lib A) : keeps_heap (call m).
Proof. intros w b w' (es & _ & Hh & _)%call_Ok. done. Qed.

Lemma keeps_bind (m : Run A) (f : A -> Run B) :
  keeps_heap m -> (forall a, keeps_heap (f a)) -> keeps_heap (bind m f).
Proof.
  intros Hm Hf w b w' (a & w1 & H1 & H2)%bind_Ok.
  rewrite (Hf _ _ _ _ H2). eauto.
Qed.
End KeepsHeap.

Lemma keeps_read v : keeps_heap (read v).
Proof. intros w b w' [-> _]%read_Ok. done. Qed.

Lemma keeps_read_all a : keeps_heap (read_all a).
Proof. intros w b w' [_ ->]%read_all_Ok. done. Qed.

Lemma keeps_log e : keeps_heap (log e).
Proof. intros w b w' [Hh _]%log_Ok. done. Qed.

Lemma keeps_check c u : keeps_heap (check c u).
Proof. intros w b w' [_ ->]%check_Ok. done. Qed.

Lemma keeps_SetFromTrueVector `{Library} gf : keeps_heap (SetFromTrueVector gf).
Proof.
  intros w b w' Hrun.
  apply SetFromTrueVector_Ok in Hrun as (f & tv & _ & _ & _ & _ & Hh & _). done.
Qed.

Lemma keeps_assemble_from `{Library} o fes k off gf :
  keeps_heap (ReducedSystemOperator.assemble_from o fes k off gf).
Proof.
  unfold ReducedSystemOperator.assemble_from.
  apply keeps_bind; [apply keeps_SetFromTrueVector|]. intros gf'.
  apply keeps_bind; [apply keeps_log|]. intros _. apply keeps_ret.
Qed.

(** [H : bind m f w = (Ok b, w')] with [m] leaving the heap alone: move to
    the rest of the run, carrying the heap equation into [Hh]. *)
Ltac is_bind H :=
  lazymatch type of H with
  | bind _ _ _ = _ => idtac
  | _ => fail "not a bind"
  end.

Ltac keep_step H a Hh :=
  let w1 := fresh "w" in
  is_bind H;
  apply bind_Ok in H as (a & w1 & Hh & H);
  cbv beta in H;
  first [ apply keeps_ret in Hh | apply keeps_deref in Hh | apply keeps_call in Hh
        | apply keeps_read in Hh | apply keeps_read_all in Hh | apply keeps_log in Hh
        | apply keeps_check in Hh | apply keeps_SetFromTrueVector in Hh
        | apply keeps_assemble_from in Hh ].

Ltac open_pairs H :=
  repeat match type of H with
         | context [match ?r with pair _ _ => _ end] => is_var r; destruct r
         end.

Ltac drop_step H :=
  is_bind H;
  apply bind_Ok in H as (? & ? & _ & H); cbv beta in H; open_pairs H.

Ltac next_step H a w1 Hs :=
  is_bind H;
  apply bind_Ok in H as (a & w1 & Hs & H); cbv beta in H.

(** ** Rows of a block that are zero *)

Lemma on_view_SetSubVector_zero v ess u w w' :
  on_view v (SetSubVector ess 0) w = (Ok u, w') ->
  rows_zero (heap w') (v_base v) (v_off v) ess /\
  (forall i, i ∈ ess -> i < v_len v).
Proof.
  intros (d & es & y' & Hd & Hle & Hf & Hlen & Hh & _)%on_view_Ok.
  apply SetSubVector_Ok in Hf as (_ & -> & Hin).
  rewrite length_slice in Hin by done.
  split; [|done].
  exists (splice (v_off v) (SetSubVector_list ess 0 (slice (v_off v) (v_len v) d)) d).
  rewrite Hh, lookup_insert_eq. split; [done|].
  intros i Hi. specialize (Hin i Hi).
  rewrite length_SetSubVector_list, length_slice in Hlen by done.
  rewrite lookup_splice_in;
    rewrite ?length_SetSubVector_list, ?length_slice by done; [|lia|lia].
  replace (v_off v + i - v_off v) with i by lia.
  apply lookup_SetSubVector_list_in; [done|].
  by rewrite length_slice.
Qed.

Lemma on_view_keeps_zero v f u w w' y off ess sc :
  on_view v f w = (Ok u, w') ->
  (v_base v = y -> v_off v + v_len v <= off \/ off + sc <= v_off v) ->
  (forall i, i ∈ ess -> i < sc) ->
  rows_zero (heap w) y off ess -> rows_zero (heap w') y off ess.
Proof.
  intros (d & es & y' & Hd & Hle & Hf & Hlen & Hh & _)%on_view_Ok Hdisj Hess
    (d0 & Hd0 & Hz).
  destruct (decide (v_base v = y)) as [Heq|Hne].
  - subst y. rewrite Hd in Hd0. injection Hd0 as <-.
    exists (splice (v_off v) y' d). rewrite Hh, lookup_insert_eq. split; [done|].
    intros i Hi. specialize (Hess i Hi). specialize (Hdisj eq_refl).
    rewrite lookup_splice_out by lia. by apply Hz.
  - exists d0. rewrite Hh, lookup_insert_ne by done. done.
Qed.

Lemma rows_zero_heap h h' y off ess :
  h' = h -> rows_zero h y off ess -> rows_zero h' y off ess.
Proof. by intros ->. Qed.

(** ** Inverting a whole run *)

Ltac inv_lib Hf :=
  lazymatch type of Hf with
  | TrueAddMult _ _ _ _ _ = Ok _ => apply TrueAddMult_Ok in Hf as (-> & -> & ? & ?)
  | Form_Mult _ _ _ _ _ = Ok _ => apply Form_Mult_Ok in Hf as (-> & -> & ? & ?)
  | Matrix_Mult _ _ _ _ _ = Ok _ => apply Matrix_Mult_Ok in Hf as (-> & -> & ? & ?)
  | Matrix_AddMult _ _ _ _ _ = Ok _ => apply Matrix_AddMult_Ok in Hf as (-> & -> & ? & ?)
  | FormLinearSystem _ _ _ _ _ _ = Ok _ =>
      apply FormLinearSystem_Ok in Hf as (-> & -> & ? & ?)
  | CG_Mult _ _ _ _ = Ok _ => apply CG_Mult_Ok in Hf as (? & ? & ? & -> & ->)
  | PCG_Mult _ _ _ _ = Ok _ => apply PCG_Mult_Ok in Hf as (? & -> & ->)
  | SetSubVector _ _ _ = Ok _ => apply SetSubVector_Ok in Hf as (-> & -> & ?)
  | vec_zip _ _ _ = Ok _ => apply vec_zip_Ok in Hf as (-> & -> & ?)
  | _ => idtac
  end.

Ltac inv_prim Hs :=
  lazymatch type of Hs with
  | ret _ _ = (Ok _, _) => apply ret_Ok in Hs as [-> ->]
  | deref _ _ _ = (Ok _, _) => apply deref_Ok in Hs as [? ->]
  | check _ _ _ = (Ok _, _) => apply check_Ok in Hs as [? ->]
  | MFEM_VERIFY _ _ _ = (Ok _, _) => apply MFEM_VERIFY_Ok in Hs as [? ->]
  | get_heap _ = (Ok _, _) => apply get_heap_Ok in Hs as [-> ->]
  | log _ _ = (Ok _, _) => apply log_Ok in Hs as [? ?]
  | read_all _ _ = (Ok _, _) => apply read_all_Ok in Hs as [? ->]
  | write_all _ _ _ = (Ok _, _) => apply write_all_Ok in Hs as [? ?]
  | read _ _ = (Ok _, _) => apply read_Ok in Hs as [-> (? & ? & ? & ->)]
  | call _ _ = (Ok _, _) =>
      let Hf := fresh "Hf" in
      apply call_Ok in Hs as (? & Hf & ? & ?); inv_lib Hf
  | on_view _ _ _ = (Ok _, _) =>
      let Hf := fresh "Hf" in
      apply on_view_Ok in Hs as (? & ? & ? & ? & ? & Hf & ? & ? & ?); inv_lib Hf
  | SetFromTrueVector _ _ = (Ok _, _) =>
      apply SetFromTrueVector_Ok in Hs as (? & ? & ? & ? & ? & -> & ? & ?)
  | _ => idtac
  end.

Ltac inv_all H :=
  lazymatch type of H with
  | ReducedSystemOperator.assemble_from _ _ _ _ _ _ = (Ok _, _) =>
      unfold ReducedSystemOperator.assemble_from, MakeTRef in H;
      cbv beta iota zeta in H; inv_all H
  | bind _ _ _ = (Ok _, _) =>
      let Hs := fresh "Hs" in
      apply bind_Ok in H as (? & ? & Hs & H);
      inv_all Hs; cbv beta iota zeta in H; inv_all H
  | (match ?s with _ => _ end) _ = (Ok _, _) =>
      destruct s eqn:?; cbv beta iota zeta in H; inv_all H
  | _ => inv_prim H
  end.

(** Read the final trace off the steps. *)
Ltac unroll_trace :=
  repeat match goal with
         | Ht : trace ?w = _ |- context [trace ?w] => rewrite Ht
         end;
  rewrite <- ?(assoc_L (++)); simpl.

(** Express every heap in terms of the earliest one. *)
Ltac fold_heaps :=
  repeat match goal with
         | Hh : heap ?w1 = _ |- _ =>
             is_var w1; rewrite ?Hh in *; clear Hh;
             try match goal with Ht : trace w1 = _ |- _ => idtac end
         end.

Ltac same_reads :=
  repeat match goal with
         | H1 : ?o = Some ?x, H2 : ?o = Some ?y |- _ =>
             first [ constr_eq x y; clear H2
                   | rewrite H1 in H2; injection H2 as <- ]
         end.

Lemma Fill_length_eq c (a b : Vec) : length a = length b -> Fill c a = Fill c b.
Proof. intros Hl. by rewrite !Fill_replicate, Hl. Qed.

Lemma new_events_app w w' L : trace w' = trace w ++ L -> new_events w w' = L.
Proof. intros Ht. unfold new_events. by rewrite Ht, drop_app_length. Qed.

(** Membership in an explicit list of events. *)
Ltac by_cases_in Hin :=
  repeat (apply elem_of_cons in Hin as [Hin|Hin];
          [ first [ discriminate Hin | injection Hin as ->; reflexivity ] | ]);
  by apply elem_of_nil in Hin.

Ltac by_cases_ev Hin :=
  repeat (apply elem_of_cons in Hin as [->|Hin]; [reflexivity|]);
  by apply elem_of_nil in Hin.

Ltac find_in :=
  repeat first [ apply list_elem_of_here | apply list_elem_of_further ].



(** ** The reduced residual *)

(** Carry every [rows_zero] fact over a step. *)
Ltac carry_heap Hh :=
  repeat match goal with
         | Hz : rows_zero (heap ?w0) _ _ _ |- _ =>
             lazymatch type of Hh with
             | heap _ = heap w0 => apply (rows_zero_heap _ _ _ _ _ Hh) in Hz
             end
         end.

Ltac carry_view Hs sc Hess :=
  repeat match goal with
         | Hz : rows_zero (heap ?w0) _ _ _ |- _ =>
             lazymatch type of Hs with
             | on_view _ _ w0 = _ =>
                 eapply (on_view_keeps_zero _ _ _ _ _ _ _ _ sc Hs) in Hz;
                 [ | simpl; lia | exact Hess ]
             end
         end.

Ltac keep_rows Hrun :=
  let a := fresh "a" in let Hh := fresh "Hh" in
  keep_step Hrun a Hh; carry_heap Hh; clear Hh.

Ltac view_rows Hrun sc Hess :=
  let a := fresh "a" in let w1 := fresh "w" in let Hs := fresh "Hs" in
  next_step Hrun a w1 Hs; carry_view Hs sc Hess; clear Hs.

(** A guarded application [if (D != NULL) D->TrueAddMult(x, y)]. *)
Lemma guarded_keeps_zero {D : Type} (o : option D) rd v (g : D -> Vec -> Vec -> Lib Vec)
    u w w' y off ess sc :
  match o with
  | Some a => bind (read rd) (fun x => on_view v (g a x))
  | None => ret tt
  end w = (Ok u, w') ->
  (v_base v = y -> v_off v + v_len v <= off \/ off + sc <= v_off v) ->
  (forall i, i ∈ ess -> i < sc) ->
  rows_zero (heap w) y off ess -> rows_zero (heap w') y off ess.
Proof.
  intros Hs Hdisj Hess Hz. destruct o as [a|].
  - apply bind_Ok in Hs as (x & w1 & Hr & Hs).
    apply keeps_read in Hr. apply (rows_zero_heap _ _ _ _ _ Hr) in Hz.
    by eapply on_view_keeps_zero.
  - by apply ret_Ok in Hs as [_ ->].
Qed.

Lemma keeps_option_call {A D : Type} (o : option D) (f : D -> Lib A) (a : A) :
  keeps_heap (match o with Some e => call (f e) | None => ret a end).
Proof. destruct o; [apply keeps_call | apply keeps_ret]. Qed.

Ltac carry_guarded Hs sc Hess :=
  repeat match goal with
         | Hz : rows_zero (heap ?w0) _ _ _ |- _ =>
             lazymatch type of Hs with
             | _ w0 = _ =>
                 eapply (guarded_keeps_zero _ _ _ _ _ _ _ _ _ _ sc Hs) in Hz;
                 [ | simpl; lia | exact Hess ]
             end
         end.

Ltac guarded_rows Hrun sc Hess :=
  let a := fresh "a" in let w1 := fresh "w" in let Hs := fresh "Hs" in
  next_step Hrun a w1 Hs; carry_guarded Hs sc Hess; clear Hs.

Ltac forcing_rows Hrun :=
  let a := fresh "a" in let w1 := fresh "w" in let Hh := fresh "Hh" in
  next_step Hrun a w1 Hh; apply keeps_option_call in Hh; carry_heap Hh; clear Hh.

(** The final [SetSubVector] of a block: the block's rows become zero. *)
Ltac zero_rows Hrun Hz sc Hess :=
  let a := fresh "a" in let w1 := fresh "w" in let Hs := fresh "Hs" in
  let Hs' := fresh "Hs" in
  next_step Hrun a w1 Hs;
  pose proof Hs as Hs';
  apply on_view_SetSubVector_zero in Hs' as [Hz _]; simpl in Hz;
  carry_view Hs sc Hess; clear Hs.

Section ReducedResidual.
Context `{Library}.
Import ReducedSystemOperator.

(** C3. After an evaluation of the reduced residual, the entries of the
    three output blocks y1, y2, y3 at every essential dof are exactly
    zero, whatever the iterate, the start-of-step state and the operator's
    other members are. *)
Theorem ReducedMult_essential_rows_zero k y op w op' w' :
  Mult k y op w = (Ok op', w') ->
  exists d, heap w' !! y = Some d /\
    forall i, i ∈ ess_tdof_list op ->
      d !! i = Some 0%Q /\
      d !! (height op / 3 + i) = Some 0%Q /\
      d !! (2 * (height op / 3) + i) = Some 0%Q.
Proof.
  unfold Mult. set (sc := height op / 3). set (ess := ess_tdof_list op).
  intros Hrun.
  do 13 drop_step Hrun.
  next_step Hrun u1 wa Hs.
  apply on_view_SetSubVector_zero in Hs as [Hz1 Hess]. simpl in Hz1, Hess.
  (* y2 *)
  do 4 keep_rows Hrun.
  view_rows Hrun sc Hess.
  keep_rows Hrun.
  view_rows Hrun sc Hess.
  guarded_rows Hrun sc Hess.
  forcing_rows Hrun.
  zero_rows Hrun Hz2 sc Hess.
  (* y3 *)
  do 4 keep_rows Hrun.
  view_rows Hrun sc Hess.
  keep_rows Hrun.
  view_rows Hrun sc Hess.
  guarded_rows Hrun sc Hess.
  view_rows Hrun sc Hess.
  zero_rows Hrun Hz3 sc Hess.
  apply ret_Ok in Hrun as [_ ->].
  destruct Hz1 as (d & Hd & Hz1), Hz2 as (d2 & Hd2 & Hz2), Hz3 as (d3 & Hd3 & Hz3).
  rewrite Hd in Hd2, Hd3. injection Hd2 as <-. injection Hd3 as <-.
  exists d. split; [done|]. intros i Hi.
  specialize (Hz1 i Hi). specialize (Hz2 i Hi). specialize (Hz3 i Hi).
  done.
Qed.

End ReducedResidual.

(** ** The forcing term of the reduced residual *)

Lemma bind_cong {A B C} (m : Run A) (f : A -> Run B) (g : A -> Run C) w b c w' :
  (forall a w1, f a w1 = (Ok b, w') -> g a w1 = (Ok c, w')) ->
  bind m f w = (Ok b, w') -> bind m g w = (Ok c, w').
Proof.
  intros Hfg (a & w1 & Hm & Hf)%bind_Ok. unfold bind. rewrite Hm. by apply Hfg.
Qed.

Lemma world_ext (w1 w2 : World) :
  heap w1 = heap w2 -> trace w1 = trace w2 -> w1 = w2.
Proof. destruct w1, w2. simpl. by intros -> ->. Qed.

(** [if (E0Vec != NULL) z += *E0Vec;] against no statement at all: the
    world is the same after both, only the value of [z] may differ. *)
Lemma forcing_step {B C} (e : option Vec) z (f : Vec -> Run B) (g : Vec -> Run C)
    w b c w' :
  (forall z1, f z1 w = (Ok b, w') -> g z w = (Ok c, w')) ->
  bind (match e with Some E => call (vec_zip Qplus z E) | None => ret z end) f w
    = (Ok b, w') ->
  bind (ret z) g w = (Ok c, w').
Proof.
  intros Hfg (z1 & w1 & Hz & Hf)%bind_Ok.
  assert (w1 = w) as ->.
  { destruct e.
    - apply call_Ok in Hz as (es & Hv & Hh & Ht).
      apply vec_zip_Ok in Hv as (-> & _ & _).
      apply world_ext; [done|]. by rewrite Ht, app_nil_r.
    - by apply ret_Ok in Hz as [_ ->]. }
  unfold bind, ret. by apply (Hfg z1).
Qed.

(** Follow two runs that start with the same step. *)
Ltac cong_step :=
  apply bind_cong; intros ? ?; cbv beta;
  repeat match goal with
         | |- context [match ?r with pair _ _ => _ end] => is_var r; destruct r
         end.

Section ReducedForcing.
Context `{Library}.
Import ReducedSystemOperator.

(** The forcing vector has no part in the result of the reduced
    residual: an evaluation with E0Vec configured leaves the same output
    vectors, the same trace and the same operator state as the
    evaluation with E0Vec null. *)
Lemma ReducedMult_ignores_forcing k y op w op' w' :
  Mult k y op w = (Ok op', w') ->
  Mult k y (with_E0Vec None op) w = (Ok (with_E0Vec None op'), w').
Proof.
  unfold Mult. cbv zeta.
  cbn [with_E0Vec height fespace M K KB DRe DSl Mmat Kmat Mdt E0Vec j0 M_solver
       dt phi psi ReducedSystemOperator.w ess_tdof_list phiGf psiGf Nv Nb
       Jacobian Mtmp z zFull Z J].
  do 22 cong_step.
  apply forcing_step. intros z1. cbv beta.
  do 11 cong_step.
  intros [-> ->]%ret_Ok. reflexivity.
Qed.
End ReducedForcing.

(** ** The value of the flux block of the reduced residual *)

Lemma on_view_same_except v f u w w' h0 :
  on_view v f w = (Ok u, w') ->
  same_except (heap w) h0 (v_base v) -> same_except (heap w') h0 (v_base v).
Proof.
  intros (d & es & y' & _ & _ & _ & _ & Hh & _)%on_view_Ok Hsame a Ha.
  rewrite Hh, lookup_insert_ne by done. by apply Hsame.
Qed.

Lemma same_except_heap h h' h0 y :
  h' = h -> same_except h h0 y -> same_except h' h0 y.
Proof. by intros ->. Qed.

Lemma block_is_heap h h' y off X : h' = h -> block_is h y off X -> block_is h' y off X.
Proof. by intros ->. Qed.

(** The first library call on a block. *)
Lemma on_view_block_init v f u w w' :
  on_view v f w = (Ok u, w') ->
  exists X es X',
    length X = v_len v /\ f X = Ok (es, X') /\ length X' = v_len v /\
    block_is (heap w') (v_base v) (v_off v) X'.
Proof.
  intros (d & es & y' & Hd & Hle & Hf & Hlen & Hh & _)%on_view_Ok.
  exists (slice (v_off v) (v_len v) d), es, y'.
  split; [by apply length_slice|]. split; [done|]. split; [done|].
  exists (splice (v_off v) y' d). rewrite Hh, lookup_insert_eq.
  split; [done|]. rewrite length_splice by lia. split; [lia|].
  apply slice_splice_same. lia.
Qed.

(** A further library call on a block whose content is known. *)
Lemma on_view_block v f u w w' X :
  block_is (heap w) (v_base v) (v_off v) X -> length X = v_len v ->
  on_view v f w = (Ok u, w') ->
  exists es X',
    f X = Ok (es, X') /\ length X' = v_len v /\
    block_is (heap w') (v_base v) (v_off v) X'.
Proof.
  intros (d0 & Hd0 & Hle0 & HX) HlX
    (d & es & y' & Hd & Hle & Hf & Hlen & Hh & _)%on_view_Ok.
  rewrite Hd0 in Hd. injection Hd as <-.
  rewrite HlX in HX. rewrite HX in Hf.
  exists es, y'. split; [done|]. split; [done|].
  exists (splice (v_off v) y' d0). rewrite Hh, lookup_insert_eq.
  split; [done|]. rewrite length_splice by lia. split; [lia|].
  apply slice_splice_same. lia.
Qed.

(** A library call on another block. *)
Lemma on_view_keeps_block v f u w w' y off X :
  on_view v f w = (Ok u, w') ->
  (v_base v = y -> v_off v + v_len v <= off \/ off + length X <= v_off v) ->
  block_is (heap w) y off X -> block_is (heap w') y off X.
Proof.
  intros (d & es & y' & Hd & Hle & Hf & Hlen & Hh & _)%on_view_Ok Hdisj
    (d0 & Hd0 & Hle0 & HX).
  destruct (decide (v_base v = y)) as [Heq|Hne].
  - subst y. rewrite Hd in Hd0. injection Hd0 as <-. specialize (Hdisj eq_refl).
    exists (splice (v_off v) y' d). rewrite Hh, lookup_insert_eq.
    split; [done|]. rewrite length_splice by lia. split; [lia|].
    rewrite slice_splice_out by lia. done.
  - exists d0. rewrite Hh, lookup_insert_ne by done. done.
Qed.

Lemma Forall2_Qeq_SetSubVector_list dofs c (a b : Vec) :
  Forall2 Qeq a b ->
  Forall2 Qeq (SetSubVector_list dofs c a) (SetSubVector_list dofs c b).
Proof.
  unfold SetSubVector_list. revert a b.
  induction dofs as [|i dofs IH]; intros a b Hab; simpl; [done|].
  apply IH. apply Forall2_insert; [done | reflexivity].
Qed.

Lemma lookup_imap_Some {A B} (f : nat -> A -> B) (l : list A) i y :
  imap f l !! i = Some y -> exists x, l !! i = Some x /\ y = f i x.
Proof.
  rewrite list_lookup_imap. destruct (l !! i) as [x|]; simpl; [|done].
  intros [= <-]. eauto.
Qed.

(** Carry the facts about the heap over a step that leaves it alone. *)
Ltac carry_facts Hh :=
  repeat match goal with
         | Hz : same_except (heap ?w0) _ _ |- _ =>
             lazymatch type of Hh with
             | heap _ = heap w0 => apply (same_except_heap _ _ _ _ Hh) in Hz
             end
         | Hz : block_is (heap ?w0) _ _ _ |- _ =>
             lazymatch type of Hh with
             | heap _ = heap w0 => apply (block_is_heap _ _ _ _ _ Hh) in Hz
             end
         end.

Ltac keep_facts Hrun :=
  let a := fresh "a" in let Hh := fresh "Hh" in
  keep_step Hrun a Hh; carry_facts Hh; clear Hh; open_pairs Hrun.

(** A write to another block of the output. *)
Ltac other_block Hrun :=
  let a := fresh "a" in let w1 := fresh "w" in let Hs := fresh "Hs" in
  next_step Hrun a w1 Hs;
  repeat match goal with
         | Hz : same_except (heap ?w0) _ _ |- _ =>
             lazymatch type of Hs with
             | on_view _ _ w0 = _ => apply (on_view_same_except _ _ _ _ _ _ Hs) in Hz
             end
         | Hz : block_is (heap ?w0) _ _ _ |- _ =>
             lazymatch type of Hs with
             | on_view _ _ w0 = _ =>
                 eapply (on_view_keeps_block _ _ _ _ _ _ _ _ Hs) in Hz;
                 [ | cbn [v_base v_off v_len]; lia ]
             end
         end;
  clear Hs.

Lemma guarded_keeps_block {D : Type} (o : option D) rd v
    (g : D -> Vec -> Vec -> Lib Vec) u w w' y off X :
  match o with
  | Some a => bind (read rd) (fun x => on_view v (g a x))
  | None => ret tt
  end w = (Ok u, w') ->
  (v_base v = y -> v_off v + v_len v <= off \/ off + length X <= v_off v) ->
  block_is (heap w) y off X -> block_is (heap w') y off X.
Proof.
  intros Hs Hdisj Hb. destruct o as [a|].
  - apply bind_Ok in Hs as (x & w1 & Hr & Hs).
    apply keeps_read in Hr. apply (block_is_heap _ _ _ _ _ Hr) in Hb.
    by eapply on_view_keeps_block.
  - by apply ret_Ok in Hs as [_ ->].
Qed.

Section FluxBlock.
Context `{Library}.
Import ReducedSystemOperator.

(** What the code leaves in y2. With the output vector distinct from the
    iterate and from the start-of-step state, the flux block of the
    residual is, entry by entry, M (psiNew - psi)/dt + Nv psiNew +
    DSl psiNew with the essential rows zeroed: the formula of the
    specification with the forcing left out, whether or not a forcing
    vector is configured. *)
Theorem ReducedMult_flux_block k y op w op' w' psi_v :
  Mult k y op w = (Ok op', w') ->
  y <> k -> psi op = Some psi_v -> v_base psi_v <> y ->
  let sc := height op / 3 in
  exists dk dpsi d' Nv_,
    heap w !! k = Some dk /\ heap w !! v_base psi_v = Some dpsi /\
    heap w' !! y = Some d' /\ Nv op' = Some Nv_ /\
    Forall2 Qeq (slice sc sc d')
      (y2_spec (with_E0Vec None op) Nv_ (slice sc sc dk)
         (slice (v_off psi_v) (v_len psi_v) dpsi)).
Proof.
  intros Hrun Hyk Hpsi Hpy sc. unfold Mult in Hrun. cbv zeta in Hrun.
  change (height op / 3) with sc in Hrun.
  assert (same_except (heap w) (heap w) y) as Hsame by done.
  do 9 keep_facts Hrun.
  (* y1 *)
  keep_facts Hrun. other_block Hrun. keep_facts Hrun. other_block Hrun.
  other_block Hrun.
  (* y2 *)
  next_step Hrun psiNew wx1 Hs.
  apply read_Ok in Hs as [-> (dk & Hdk & Hlek & ->)]. cbn [v_base v_off v_len] in *.
  rewrite (Hsame k) in Hdk by done.
  next_step Hrun pv wx2 Hs. apply deref_Ok in Hs as [Hp ->].
  rewrite Hpsi in Hp. injection Hp as <-.
  next_step Hrun psi0 wx3 Hs.
  apply read_Ok in Hs as [-> (dpsi & Hdpsi & Hlepsi & ->)].
  rewrite (Hsame (v_base psi_v)) in Hdpsi by done.
  next_step Hrun zd wx4 Hs.
  apply call_Ok in Hs as (es & Hf & Hh & _). carry_facts Hh. clear Hh.
  apply vec_zip_Ok in Hf as (-> & -> & Hlz).
  next_step Hrun u1 wx5 Hs.
  pose proof (on_view_same_except _ _ _ _ _ _ Hs Hsame) as Hsame2.
  apply on_view_block_init in Hs as (X0 & es & X1 & HlX0 & Hf & HlX1 & Hblk).
  apply Matrix_Mult_Ok in Hf as (-> & HX1 & _ & _).
  cbn [v_base v_off v_len] in *. clear Hsame.
  next_step Hrun psiNew' wx6 Hs.
  apply read_Ok in Hs as [-> (dk' & Hdk' & _ & ->)]. cbn [v_base v_off v_len] in *.
  rewrite (Hsame2 k) in Hdk' by done. rewrite Hdk in Hdk'. injection Hdk' as <-.
  next_step Hrun u2 wx7 Hs.
  pose proof (on_view_same_except _ _ _ _ _ _ Hs Hsame2) as Hsame3.
  eapply on_view_block in Hs as (es & X2 & Hf & HlX2 & Hblk2);
    [ | exact Hblk | exact HlX1 ].
  apply TrueAddMult_Ok in Hf as (-> & HX2 & _ & _).
  cbn [v_base v_off v_len] in *. clear Hsame2 Hblk.
  next_step Hrun u3 wx8 Hs.
  assert (exists X3,
    block_is (heap wx8) y sc X3 /\ length X3 = sc /\
    X3 = match DSl op with
         | Some D => imap (fun i yi => (yi + form_true_action (fespace op) D
                                               (slice sc sc dk) i)%Q) X2
         | None => X2
         end) as (X3 & Hblk3 & HlX3 & HX3).
  { destruct (DSl op) as [D|].
    - next_step Hs psiNew'' wx9 Hr.
      apply read_Ok in Hr as [-> (dk'' & Hdk'' & _ & ->)].
      cbn [v_base v_off v_len] in *.
      rewrite (Hsame3 k) in Hdk'' by done. rewrite Hdk in Hdk''.
      injection Hdk'' as <-.
      eapply on_view_block in Hs as (es & X3 & Hf & HlX3 & Hblk3);
        [ | exact Hblk2 | exact HlX2 ].
      apply TrueAddMult_Ok in Hf as (-> & -> & _ & _).
      eexists. split; [exact Hblk3|]. split; [exact HlX3 | reflexivity].
    - apply ret_Ok in Hs as [_ ->]. eexists. split; [exact Hblk2|].
      split; [exact HlX2 | reflexivity]. }
  clear Hs Hblk2 Hsame3.
  next_step Hrun z' wx10 Hs. apply keeps_option_call in Hs.
  carry_facts Hs. clear Hs.
  next_step Hrun u4 wx11 Hs.
  eapply on_view_block in Hs as (es & X4 & Hf & HlX4 & Hblk4);
    [ | exact Hblk3 | exact HlX3 ].
  apply SetSubVector_Ok in Hf as (-> & -> & _).
  cbn [v_base v_off v_len] in *. clear Hblk3.
  (* y3 *)
  do 4 keep_facts Hrun. other_block Hrun. keep_facts Hrun. other_block Hrun.
  next_step Hrun u5 wx12 Hs.
  eapply (guarded_keeps_block _ _ _ _ _ _ _ _ _ _ Hs) in Hblk4;
    [ | cbn [v_base v_off v_len]; lia ]. clear Hs.
  other_block Hrun. other_block Hrun.
  apply ret_Ok in Hrun as [-> ->].
  destruct Hblk4 as (d' & Hd' & _ & Hslice). rewrite HlX4 in Hslice.
  eexists dk, dpsi, d', _.
  split; [exact Hdk|]. split; [exact Hdpsi|]. split; [exact Hd'|].
  split; [reflexivity|].
  rewrite Hslice. unfold y2_spec.
  cbn [with_E0Vec height fespace DSl Mmat E0Vec dt ess_tdof_list].
  apply Forall2_Qeq_SetSubVector_list.
  apply Forall2_same_length_lookup_2.
  { rewrite length_tabulate. exact HlX3. }
  intros i x3 s Hx3 Hs.
  assert (i < sc) as Hi.
  { apply lookup_lt_Some in Hs. by rewrite length_tabulate in Hs. }
  rewrite lookup_tabulate in Hs by done. injection Hs as <-.
  subst X3 X2 X1. destruct (DSl op) as [D|].
  - apply lookup_imap_Some in Hx3 as (x2 & Hx2 & ->).
    apply lookup_imap_Some in Hx2 as (x1 & Hx1 & ->).
    apply lookup_imap_Some in Hx1 as (x0 & _ & ->). ring.
  - apply lookup_imap_Some in Hx3 as (x1 & Hx1 & ->).
    apply lookup_imap_Some in Hx1 as (x0 & _ & ->). ring.
Qed.
End FluxBlock.

(** ** The explicit evaluator *)

Section ExplicitEvaluator.
Context `{Library} `{NonlinearSolver}.
Import ResistiveMHDOperator.

Lemma Mult_Ok_inv vx dvx op w op' w' :
  Mult vx dvx op w = (Ok op', w') ->
  let sc := height op / 3 in
  exists d0 f tv KB_ M_ A Nv_ Nb_ dx dx',
    heap w !! dvx = Some d0 /\
    gf_fes (gf op) = Some f /\
    KB op = Some KB_ /\ M op = Some M_ /\ oper (M_solver op) = Some A /\
    Nv op = Some Nv_ /\ Nb op = Some Nb_ /\
    let h0 := <[dvx := Fill 0 d0]> (heap w) in
    tvec_in h0 (gf op) tv /\
    let gfd := tabulate (GetVSize f) (Distribute f tv) in
    let b := explicit_current_rhs op f KB_ tv in
    let J := explicit_current op A M_ b in
    h0 !! vx = Some dx /\
    let psi := slice sc sc dx in
    let rhs1 := explicit_flux_rhs op Nv_ psi in
    let dpsi := solution (M_solver op) A rhs1 (slice sc sc (Fill 0 d0)) in
    let d1 := splice sc dpsi (Fill 0 d0) in
    let h1 := <[dvx := d1]> h0 in
    h1 !! vx = Some dx' /\
    let wv := slice (2 * sc) sc dx' in
    let rhs2 := explicit_vorticity_rhs op rhs1 Nv_ Nb_ wv J in
    let dw := solution (M_solver op) A rhs2 (slice (2 * sc) sc d1) in
    heap w' = <[dvx := splice (2 * sc) dw d1]> h1 /\
    trace w' = trace w ++
      [EvDistribute tv; EvApply opKB gfd;
       EvFormLinearSystem opM (gf_data (j op)) b;
       EvSolve sM_solver (explicit_current_B op M_ b)
         (guess (M_solver op) (explicit_current_X op M_ b));
       EvApply opNv psi] ++
      events_if (negb (Qeq_bool (resistivity op) 0)) [EvApply opDSl psi] ++
      [EvSolve sM_solver rhs1 (guess (M_solver op) (slice sc sc (Fill 0 d0)));
       EvApply opNv wv] ++
      events_if (negb (Qeq_bool (viscosity op) 0)) [EvApply opDRe wv] ++
      [EvApply opNb J;
       EvSolve sM_solver rhs2 (guess (M_solver op) (slice (2 * sc) sc d1))] /\
    op' = with_scratch rhs2 b (mkGF (gf_fes (gf op)) gfd (t_vec (gf op))) op /\
    sc = TrueVSize (fespace op) /\ 3 * sc <= length d0.
Proof.
  intros Hrun sc. unfold Mult, Mult_current in Hrun.
  cbv zeta in Hrun. change (height op / 3) with sc in Hrun. clearbody sc.
  inv_all Hrun.
  all: fold_heaps; cbn [v_base v_off v_len gf_data] in *.
  all: repeat match goal with
         | Hl : <[?a := _]> _ !! ?a = Some _ |- _ =>
             rewrite lookup_insert_eq in Hl; injection Hl as <-
         end.
  all: same_reads.
  all: do 10 eexists; cbv zeta.
  all: unfold explicit_flux_rhs, explicit_vorticity_rhs, explicit_current,
         explicit_current_B, explicit_current_X, solution, guess.
  all: repeat match goal with
         | Hb : negb _ = _ |- _ => rewrite Hb
         | Hb : E0Vec _ = _ |- _ => rewrite Hb
         end; cbv beta iota zeta.
  all: do 8 (split; [eassumption|]).
  all: split; [eassumption|].
  all: split; [eassumption|].
  all: split; [reflexivity|].
  all: split; [unroll_trace; reflexivity|].
  all: split; [reflexivity|].
  all: rewrite ?length_Fill in *.
  all: split.
  all: try match goal with
         | Hl : length (slice ?o ?n ?d) = TrueVSize _, Hle : ?o + ?n <= length ?d
           |- _ = TrueVSize _ => by rewrite (length_slice _ _ _ Hle) in Hl
         end.
  all: match goal with
       | Hle : 2 * _ + _ <= length (splice _ _ (Fill _ _)) |- _ =>
           rewrite length_splice, length_Fill in Hle;
           [ lia | rewrite length_imap, length_slice, length_Fill;
                   rewrite ?length_Fill; lia ]
       end.
Qed.
End ExplicitEvaluator.

(** ** The vectors the explicit evaluator hands to the mass solver *)

Section ExplicitEntries.
Context `{Library} `{NonlinearSolver}.
Import ResistiveMHDOperator.

Lemma length_solution solver A b x : length (solution solver A b x) = length x.
Proof. unfold solution. apply length_imap. Qed.





End ExplicitEntries.

Section ExplicitClaims.
Context `{Library} `{NonlinearSolver}.
Import ResistiveMHDOperator.


(** C2, as the code has it. On every call of the explicit evaluator the
    current is recomputed: the true-dof vector that gf refers to (the
    psi-block of vx when gf is bound to vx) goes through KB, the negation,
    FormLinearSystem with j as boundary data and the mass solve, and the
    result is the local vector J to which Nb is applied. The member j is
    only read: after the call it is what it was before. *)
Theorem Mult_recomputes_current_locally vx dvx op w op' w' :
  Mult vx dvx op w = (Ok op', w') ->
  let sc := height op / 3 in
  exists d0 f tv KB_ M_ A,
    j op' = j op /\
    heap w !! dvx = Some d0 /\
    gf_fes (gf op) = Some f /\ KB op = Some KB_ /\ M op = Some M_ /\
    oper (M_solver op) = Some A /\
    tvec_in (<[dvx := Fill 0 d0]> (heap w)) (gf op) tv /\
    (t_vec (gf op) = Ref (mkView vx sc sc) -> vx <> dvx ->
       exists dx, heap w !! vx = Some dx /\ tv = slice sc sc dx) /\
    let b := explicit_current_rhs op f KB_ tv in
    let J := explicit_current op A M_ b in
    EvFormLinearSystem opM (gf_data (j op)) b ∈ new_events w w' /\
    EvSolve sM_solver (explicit_current_B op M_ b)
      (guess (M_solver op) (explicit_current_X op M_ b)) ∈ new_events w w' /\
    (forall x, EvApply opNb x ∈ new_events w w' <-> x = J).
Proof.
  intros Hrun sc.
  apply Mult_Ok_inv in Hrun
    as (d0 & f & tv & KB_ & M_ & A & Nv_ & Nb_ & dx & dx' & Hd0 & Hf & HKB & HM &
        HA & _ & _ & Htv & _ & _ & _ & Ht & -> & _).
  apply new_events_app in Ht. rewrite Ht. clear Ht.
  exists d0, f, tv, KB_, M_, A.
  split; [reflexivity|]. do 6 (split; [assumption|]).
  split.
  { intros Href Hne. unfold tvec_in in Htv. rewrite Href in Htv. simpl in Htv.
    destruct Htv as (d & Hd & _ & ->).
    rewrite lookup_insert_ne in Hd by done. eauto. }
  cbv zeta. split; [|split].
  - destruct (negb _), (negb _); simpl; find_in.
  - destruct (negb _), (negb _); simpl; find_in.
  - intros x.
    destruct (negb _), (negb _); simpl;
      (split; [intros Hin; by_cases_in Hin | intros ->; find_in]).
Qed.

(** C9, as the code has it. The explicit evaluator first zero-fills the
    whole output, so after the call the phi-block of the output is zero
    whatever it held before; no solve writes into it. The psi- and
    w-blocks hold the results of the two mass solves, started from zero. *)
Theorem Mult_phi_block_zero_filled vx dvx op w op' w' :
  Mult vx dvx op w = (Ok op', w') ->
  let sc := height op / 3 in
  exists d0 d' A z1 z2,
    heap w !! dvx = Some d0 /\ heap w' !! dvx = Some d' /\
    length d' = length d0 /\ 3 * sc <= length d0 /\
    (forall i, i < sc -> d' !! i = Some 0%Q) /\
    oper (M_solver op) = Some A /\
    slice sc sc d' = solution (M_solver op) A z1 (replicate sc 0%Q) /\
    slice (2 * sc) sc d' = solution (M_solver op) A z2 (replicate sc 0%Q) /\
    EvSolve sM_solver z1 (guess (M_solver op) (replicate sc 0%Q)) ∈ new_events w w' /\
    EvSolve sM_solver z2 (guess (M_solver op) (replicate sc 0%Q)) ∈ new_events w w'.
Proof.
  intros Hrun sc.
  apply Mult_Ok_inv in Hrun
    as (d0 & f & tv & KB_ & M_ & A & Nv_ & Nb_ & dx & dx' & Hd0 & _ & _ & _ &
        HA & _ & _ & _ & _ & _ & Hh & Ht & _ & _ & Hlen).
  fold sc in Hh, Ht, Hlen.
  apply new_events_app in Ht. rewrite Ht. clear Ht.
  set (z1 := explicit_flux_rhs op Nv_ (slice sc sc dx)) in *.
  set (dpsi := solution (M_solver op) A z1 (slice sc sc (Fill 0 d0))) in *.
  set (d1 := splice sc dpsi (Fill 0 d0)) in *.
  assert (length dpsi = sc) as Hlpsi.
  { unfold dpsi. rewrite length_solution, length_slice; [done|].
    rewrite length_Fill. lia. }
  assert (length d1 = length d0) as Hl1.
  { unfold d1. rewrite length_splice, length_Fill; [done|].
    rewrite length_Fill. lia. }
  assert (slice (2 * sc) sc d1 = replicate sc 0%Q) as Hw0.
  { unfold d1. rewrite slice_splice_out by (rewrite ?length_Fill; lia).
    apply slice_Fill. lia. }
  set (z2 := explicit_vorticity_rhs op z1 Nv_ Nb_ (slice (2 * sc) sc dx')
               (explicit_current op A M_ (explicit_current_rhs op f KB_ tv))) in *.
  set (dw := solution (M_solver op) A z2 (slice (2 * sc) sc d1)) in *.
  assert (length dw = sc) as Hlw.
  { unfold dw. rewrite length_solution, length_slice; [done|]. lia. }
  exists d0, (splice (2 * sc) dw d1), A, z1, z2.
  split; [done|]. split; [by rewrite Hh, lookup_insert_eq|].
  split; [rewrite length_splice; [done|lia]|].
  split; [done|].
  split.
  { intros i Hi. rewrite lookup_splice_out by lia.
    unfold d1. rewrite lookup_splice_out by (rewrite ?length_Fill; lia).
    apply lookup_Fill. lia. }
  split; [done|].
  split.
  { rewrite slice_splice_out by lia. unfold d1.
    rewrite <- Hlpsi at 2. rewrite slice_splice_same by (rewrite length_Fill; lia).
    unfold dpsi. rewrite slice_Fill by lia. done. }
  split.
  { rewrite <- Hlw at 2. rewrite slice_splice_same by lia.
    unfold dw. by rewrite Hw0. }
  rewrite Hw0, (slice_Fill sc sc 0 d0) by lia.
  split; destruct (negb _), (negb _); simpl; find_in.
Qed.
End ExplicitClaims.

(** ** Steps that cannot abort *)

Section NeverAborts.
Context {A B : Type}.

Lemma na_ret (a : A) : never_aborts (ret a).
Proof. intros w msg w'. unfold ret. congruence. Qed.

Lemma na_undefined (u : UB) : never_aborts (@undefined A u).
Proof. intros w msg w'. unfold undefined. congruence. Qed.

Lemma na_deref what (p : option A) : never_aborts (deref what p).
Proof. destruct p; [apply na_ret | apply na_undefined]. Qed.

Lemma na_call (m : Lib A) : lib_never_aborts m -> never_aborts (call m).
Proof.
  intros Hm w msg w'. unfold call. destruct m as [[es a]|s|u]; try congruence.
  by destruct (Hm s).
Qed.

Lemma na_bind (m : Run A) (f : A -> Run B) :
  never_aborts m -> (forall a, never_aborts (f a)) -> never_aborts (bind m f).
Proof.
  intros Hm Hf w msg w'. unfold bind.
  destruct (m w) as [[a|s|u] w1] eqn:Hmw.
  - apply Hf.
  - by destruct (Hm w s w1).
  - congruence.
Qed.
End NeverAborts.

Lemma na_check c u : never_aborts (check c u).
Proof. destruct c; [apply na_ret | apply na_undefined]. Qed.

Lemma na_log e : never_aborts (log e).
Proof. intros w msg w'. unfold log. congruence. Qed.

Lemma na_read_all a : never_aborts (read_all a).
Proof. intros w msg w'. unfold read_all. destruct (heap w !! a); congruence. Qed.

Lemma na_write_all a x : never_aborts (write_all a x).
Proof. intros w msg w'. unfold write_all. congruence. Qed.

Lemma na_read v : never_aborts (read v).
Proof.
  unfold read. apply na_bind; [apply na_read_all|]. intros d.
  apply na_bind; [apply na_check|]. intros _. apply na_ret.
Qed.

Lemma na_write v x : never_aborts (write v x).
Proof.
  unfold write. apply na_bind; [apply na_read_all|]. intros d.
  apply na_bind; [apply na_check|]. intros _.
  apply na_bind; [apply na_check|]. intros _. apply na_write_all.
Qed.

Lemma na_on_view v f :
  (forall y, lib_never_aborts (f y)) -> never_aborts (on_view v f).
Proof.
  intros Hf. unfold on_view. apply na_bind; [apply na_read|]. intros y.
  apply na_bind; [by apply na_call|]. intros y'. apply na_write.
Qed.

Lemma lna_SetSubVector dofs c y : lib_never_aborts (SetSubVector dofs c y).
Proof. intros msg. unfold SetSubVector. by destruct (in_range _ _). Qed.

Lemma lna_vec_zip f a b : lib_never_aborts (vec_zip f a b).
Proof. intros msg. unfold vec_zip. by destruct (_ =? _). Qed.

Section LibraryNeverAborts.
Context `{Library}.

Lemma lna_Form_Mult fes o a x y : lib_never_aborts (Form_Mult fes o a x y).
Proof. intros msg. unfold Form_Mult. by destruct (_ && _). Qed.

Lemma lna_TrueAddMult fes o a x y : lib_never_aborts (TrueAddMult fes o a x y).
Proof. intros msg. unfold TrueAddMult. by destruct (_ && _). Qed.

Lemma lna_Matrix_Mult fes o A x y : lib_never_aborts (Matrix_Mult fes o A x y).
Proof. intros msg. unfold Matrix_Mult. by destruct (_ && _). Qed.

Lemma lna_Matrix_AddMult fes o A x y : lib_never_aborts (Matrix_AddMult fes o A x y).
Proof. intros msg. unfold Matrix_AddMult. by destruct (_ && _). Qed.

Lemma lna_FormLinearSystem fes o a ess x b :
  lib_never_aborts (FormLinearSystem fes o a ess x b).
Proof. intros msg. unfold FormLinearSystem. by destruct (_ && _). Qed.

Lemma lna_CG_Mult s solver b x : lib_never_aborts (CG_Mult s solver b x).
Proof.
  intros msg. unfold CG_Mult. destruct (oper solver); [|done].
  by destruct (_ =? _).
Qed.

Lemma lna_PCG_Mult s solver b x : lib_never_aborts (PCG_Mult s solver b x).
Proof. intros msg. unfold PCG_Mult. by destruct (_ =? _). Qed.

Lemma na_SetFromTrueVector gf : never_aborts (SetFromTrueVector gf).
Proof.
  unfold SetFromTrueVector. apply na_bind; [apply na_deref|]. intros f.
  apply na_bind.
  { unfold read_t_vec. destruct (t_vec gf); [apply na_ret | apply na_read]. }
  intros tv. apply na_bind; [apply na_check|]. intros _.
  apply na_bind; [apply na_log|]. intros _. apply na_ret.
Qed.
End LibraryNeverAborts.

Ltac solve_na :=
  repeat first
    [ apply na_ret | apply na_deref | apply na_check | apply na_log
    | apply na_read_all | apply na_write_all | apply na_read | apply na_write
    | apply na_SetFromTrueVector
    | apply na_on_view; intros ?
    | apply na_call
    | apply lna_SetSubVector | apply lna_vec_zip | apply lna_Form_Mult
    | apply lna_TrueAddMult | apply lna_Matrix_Mult | apply lna_Matrix_AddMult
    | apply lna_FormLinearSystem | apply lna_CG_Mult | apply lna_PCG_Mult
    | match goal with
      | |- never_aborts (match ?s with _ => _ end) => destruct s
      | |- lib_never_aborts (match ?s with _ => _ end) => destruct s
      end
    | apply na_bind; [| intros ?] ].

Section SetupClaims.
Context `{Library} `{NonlinearSolver}.
Import ResistiveMHDOperator.

Lemma Mult_never_aborts vx dvx op : never_aborts (Mult vx dvx op).
Proof. unfold Mult, Mult_current. solve_na. Qed.

(** C7, as the code has it. The explicit evaluator contains no setup
    check: whatever state the operator is in, an evaluation never ends in
    a diagnosed (MFEM_VERIFY) failure; and while Nv or Nb is still null,
    as the constructor leaves them, an evaluation cannot complete: it
    runs into undefined behaviour (a null dereference at the latest). *)
Theorem Mult_no_setup_check vx dvx op w :
  (forall msg w', Mult vx dvx op w <> (Abort msg, w')) /\
  (Nv op = None \/ Nb op = None ->
   exists u w', Mult vx dvx op w = (Undefined u, w')).
Proof.
  split; [apply Mult_never_aborts|].
  intros Hnull. destruct (Mult vx dvx op w) as [[op'|msg|u] w'] eqn:Hrun.
  - apply Mult_Ok_inv in Hrun
      as (d0 & f & tv & KB_ & M_ & A & Nv_ & Nb_ & dx & dx' & _ & _ & _ & _ & _ &
          HNv & HNb & _).
    destruct Hnull; congruence.
  - by destruct (Mult_never_aborts vx dvx op w msg w').
  - eauto.
Qed.

(** The constructor leaves Nv and Nb null. *)
Lemma new_unassembled f ess_bdr visc resi :
  Nv (new f ess_bdr visc resi) = None /\ Nb (new f ess_bdr visc resi) = None.
Proof. done. Qed.
End SetupClaims.

Section PotentialRecovery.
Context `{Library} `{NonlinearSolver}.
Import ResistiveMHDOperator.

Lemma new_K_solver f ess_bdr visc resi :
  let op := new f ess_bdr visc resi in
  useAMG op = false /\ K_amg op = None /\ K_pcg op = None /\
  K_solver op =
    mkCG true (1 # 10000000) 0 2000 3 (Some (mkSmoother (Some Chebyshev)))
      (Some (Kmat op)).
Proof. done. Qed.

(** No method assigns useAMG, the AMG objects or the stiffness solver. *)
Lemma reachable_K_solver op :
  reachable op ->
  useAMG op = false /\ K_amg op = None /\ K_pcg op = None /\
  K_solver op =
    mkCG true (1 # 10000000) 0 2000 3 (Some (mkSmoother (Some Chebyshev)))
      (Some (Kmat op)).
Proof.
  induction 1 as [ f ess_bdr visc resi
                 | vx op _ IH | Efield op _ IH | jBdy_ op _ IH | op _ IH
                 | initJ op w op' w' _ IH Hrun
                 | gf op w op' w' _ IH Hrun | gf op w op' w' _ IH Hrun
                 | vx op w op' w' _ IH Hrun | vx dvx op w op' w' _ IH Hrun
                 | dt vx k op w op' w' _ IH Hrun ].
  - apply new_K_solver.
  - exact IH.
  - exact IH.
  - exact IH.
  - exact IH.
  - unfold SetInitialJ in Hrun. inv_all Hrun. exact IH.
  - unfold assembleNv in Hrun. inv_all Hrun. exact IH.
  - unfold assembleNb in Hrun. inv_all Hrun. exact IH.
  - unfold UpdatePhi in Hrun. inv_all Hrun; first [exact IH | by destruct IH].
  - apply Mult_Ok_inv in Hrun
      as (d0 & f & tv & KB_ & M_ & A & Nv_ & Nb_ & dx & dx' & _ & _ & _ & _ & _ &
          _ & _ & _ & _ & _ & _ & _ & -> & _).
    exact IH.
  - unfold ImplicitSolve in Hrun. inv_all Hrun. exact IH.
Qed.


(** C10. Whatever methods have been called since construction, useAMG is
    false and the AMG objects are null, so a call of UpdatePhi applies
    Mmat to the w-block and hands the negated result, essential rows
    zeroed, to the Chebyshev-preconditioned CG solver K_solver on Kmat,
    with the phi-block as initial guess; the K_pcg solver is never run. *)
Theorem UpdatePhi_uses_K_solver op vx w op' w' :
  reachable op ->
  UpdatePhi vx op w = (Ok op', w') ->
  let sc := height op / 3 in
  useAMG op = false /\ K_amg op = None /\ K_pcg op = None /\
  prec (K_solver op) = Some (mkSmoother (Some Chebyshev)) /\
  oper (K_solver op) = Some (Kmat op) /\
  exists d,
    heap w !! vx = Some d /\
    let wv := slice (2 * sc) sc d in
    let phi0 := slice 0 sc d in
    let rhs := SetSubVector_list (ess_tdof_list op) 0
                 (Neg (imap (fun i _ => matrix_action (Mmat op) wv i) (z op))) in
    new_events w w' = [EvApply opMmat wv; EvSolve sK_solver rhs phi0] /\
    heap w' = <[vx := splice 0 (solution (K_solver op) (Kmat op) rhs phi0) d]> (heap w) /\
    (forall e, e ∈ new_events w w' -> solves sK_pcg e = false).
Proof.
  intros Hreach Hrun sc.
  destruct (reachable_K_solver op Hreach) as (Huse & Hamg & Hpcg & HK).
  split; [done|]. split; [done|]. split; [done|].
  split; [by rewrite HK|]. split; [by rewrite HK|].
  unfold UpdatePhi in Hrun. cbv zeta in Hrun.
  change (height op / 3) with sc in Hrun. clearbody sc.
  rewrite Huse in Hrun.
  inv_all Hrun. fold_heaps. cbn [v_base v_off v_len] in *. same_reads.
  eexists. split; [eassumption|]. cbv zeta.
  erewrite new_events_app by (unroll_trace; reflexivity).
  rewrite HK in *. simpl in *.
  match goal with Ho : Some _ = Some _ |- _ => injection Ho as <- end.
  split; [reflexivity|]. split; [reflexivity|].
  intros e He. by_cases_ev He.
Qed.
End PotentialRecovery.

(** ** The implicit step *)

Section ImplicitStep.
Context `{Library} `{NonlinearSolver}.
Import ResistiveMHDOperator.

(** The reduced operator as [ImplicitSolve] hands it to the Newton solver. *)
Lemma SetParameters_fields dt_ phi_ psi_ w_ ro :
  let ro' := ReducedSystemOperator.SetParameters dt_ phi_ psi_ w_ ro in
  ReducedSystemOperator.dt ro' = dt_ /\
  ReducedSystemOperator.phi ro' = phi_ /\
  ReducedSystemOperator.psi ro' = psi_ /\
  ReducedSystemOperator.w ro' = w_.
Proof. done. Qed.

(** The run of [ImplicitSolve] up to the convergence test. *)
Lemma ImplicitSolve_run dt vx k op w ro ns k0 :
  reduced_oper op = Some ro -> pnewton_solver op = Some ns ->
  heap w !! k = Some k0 ->
  let sc := height op / 3 in
  let ro' := ReducedSystemOperator.SetParameters dt
               (Some (mkView vx 0 sc)) (Some (mkView vx sc sc))
               (Some (mkView vx (2 * sc) sc)) ro in
  let out := newton_Mult ns ro' (heap w) [] k0 in
  let knew := imap (fun i _ => out_k out i) k0 in
  let w1 := mkWorld (<[k := knew]> (heap w)) (trace w ++ [EvNewton [] k0]) in
  ImplicitSolve dt vx k op w =
    bind (MFEM_VERIFY (converged (out_solver out)) "Newton solver did not converge.")
      (fun _ =>
         bind (read_all k) (fun a =>
         bind (read_all vx) (fun b =>
         bind (call (vec_zip Qminus a b)) (fun a =>
         bind (write_all k a) (fun _ =>
         bind (read_all k) (fun a =>
         bind (write_all k (Scale_div dt a)) (fun _ =>
         ret (with_implicit (Some (out_oper out)) (Some (out_solver out)) op))))))))
      w1.
Proof.
  intros Hro Hns Hk sc ro' out knew w1.
  unfold ImplicitSolve. rewrite Hro, Hns.
  unfold bind at 1. simpl.
  unfold bind at 1. simpl.
  unfold bind at 1. unfold read_all at 1. rewrite Hk.
  unfold bind at 1. unfold get_heap at 1.
  unfold bind at 1. unfold log at 1. simpl.
  unfold bind at 1. unfold write_all at 1. simpl.
  reflexivity.
Qed.


(** C5. If the Newton solver reports that it did not converge,
    ImplicitSolve ends in the MFEM_VERIFY failure "Newton solver did not
    converge.": it returns no result, and the solver has been called
    exactly once, with the step size it was given. *)
Theorem ImplicitSolve_nonconvergence_fatal dt vx k op w ro ns k0 :
  reduced_oper op = Some ro -> pnewton_solver op = Some ns ->
  heap w !! k = Some k0 ->
  let sc := height op / 3 in
  let ro' := ReducedSystemOperator.SetParameters dt
               (Some (mkView vx 0 sc)) (Some (mkView vx sc sc))
               (Some (mkView vx (2 * sc) sc)) ro in
  let out := newton_Mult ns ro' (heap w) [] k0 in
  converged (out_solver out) = false ->
  exists w',
    ImplicitSolve dt vx k op w = (Abort "Newton solver did not converge.", w') /\
    new_events w w' = [EvNewton [] k0] /\
    ReducedSystemOperator.dt ro' = dt.
Proof.
  intros Hro Hns Hk sc ro' out Hconv.
  eexists. split.
  { rewrite (ImplicitSolve_run dt vx k op w ro ns k0 Hro Hns Hk).
    fold sc ro' out. rewrite Hconv.
    unfold bind at 1. simpl. reflexivity. }
  simpl. split; [|done].
  unfold new_events. simpl. by rewrite drop_app_length.
Qed.
End ImplicitStep.

(** ** Runs that return, and the sizes the methods keep *)

Section Returns.
Context {A B : Type}.
Implicit Types (P : A -> World -> Prop).

Lemma returns_ret (a : A) w P : P a w -> returns (ret a) w P.
Proof. intros HP. by exists a, w. Qed.

Lemma returns_bind (m : Run A) (f : A -> Run B) w (Q : B -> World -> Prop) :
  returns m w (fun a w1 => returns (f a) w1 Q) -> returns (bind m f) w Q.
Proof.
  intros (a & w1 & Hm & b & w2 & Hf & HQ). exists b, w2.
  unfold bind. rewrite Hm. done.
Qed.


Lemma returns_call (m : Lib A) es a w P :
  m = Ok (es, a) -> P a (mkWorld (heap w) (trace w ++ es)) -> returns (call m) w P.
Proof. intros -> HP. eexists _, _. split; [reflexivity | exact HP]. Qed.

End Returns.

Lemma returns_check c u w (P : unit -> World -> Prop) :
  c = true -> P tt w -> returns (check c u) w P.
Proof. intros -> HP. by exists tt, w. Qed.


Lemma returns_read_all a d w (P : Vec -> World -> Prop) :
  heap w !! a = Some d -> P d w -> returns (read_all a) w P.
Proof. intros Hd HP. exists d, w. unfold read_all. by rewrite Hd. Qed.

Lemma returns_write_all a x w (P : unit -> World -> Prop) :
  P tt (mkWorld (<[a := x]> (heap w)) (trace w)) -> returns (write_all a x) w P.
Proof. intros HP. eexists _, _. split; [reflexivity | exact HP]. Qed.

Lemma returns_read v d w (P : Vec -> World -> Prop) :
  heap w !! v_base v = Some d -> v_off v + v_len v <= length d ->
  P (slice (v_off v) (v_len v) d) w -> returns (read v) w P.
Proof.
  intros Hd Hle HP. unfold read.
  apply returns_bind. eapply returns_read_all; [exact Hd|].
  apply returns_bind. apply returns_check; [by apply Nat.leb_le|].
  by apply returns_ret.
Qed.

Lemma returns_write v x d w (P : unit -> World -> Prop) :
  heap w !! v_base v = Some d -> v_off v + v_len v <= length d ->
  length x = v_len v ->
  P tt (mkWorld (<[v_base v := splice (v_off v) x d]> (heap w)) (trace w)) ->
  returns (write v x) w P.
Proof.
  intros Hd Hle Hlen HP. unfold write.
  apply returns_bind. eapply returns_read_all; [exact Hd|].
  apply returns_bind. apply returns_check; [by apply Nat.leb_le|].
  apply returns_bind. apply returns_check; [by apply Nat.eqb_eq|].
  by apply returns_write_all.
Qed.

Lemma returns_on_view v f d es y' w (P : unit -> World -> Prop) :
  heap w !! v_base v = Some d -> v_off v + v_len v <= length d ->
  f (slice (v_off v) (v_len v) d) = Ok (es, y') -> length y' = v_len v ->
  P tt (mkWorld (<[v_base v := splice (v_off v) y' d]> (heap w)) (trace w ++ es)) ->
  returns (on_view v f) w P.
Proof.
  intros Hd Hle Hf Hlen HP. unfold on_view.
  apply returns_bind. eapply returns_read; [exact Hd | exact Hle |].
  apply returns_bind. eapply returns_call; [exact Hf|].
  eapply returns_write; [exact Hd | exact Hle | exact Hlen | exact HP].
Qed.

Lemma SetSubVector_run dofs c y :
  (forall i, i ∈ dofs -> i < length y) ->
  SetSubVector dofs c y = Ok ([], SetSubVector_list dofs c y).
Proof.
  intros Hin. unfold SetSubVector.
  by rewrite (proj2 (in_range_spec _ _) Hin).
Qed.


Section LibraryRuns.
Context `{Library}.
Variable fes : ParFiniteElementSpace.


Lemma TrueAddMult_run o a x y :
  length x = TrueVSize fes -> length y = TrueVSize fes ->
  TrueAddMult fes o a x y =
    Ok ([EvApply o x], imap (fun i yi => (yi + form_true_action fes a x i)%Q) y).
Proof. intros Hx Hy. unfold TrueAddMult. by rewrite Hx, Hy, Nat.eqb_refl. Qed.

Lemma Matrix_Mult_run o A x y :
  length x = TrueVSize fes -> length y = TrueVSize fes ->
  Matrix_Mult fes o A x y =
    Ok ([EvApply o x], imap (fun i _ => matrix_action A x i) y).
Proof. intros Hx Hy. unfold Matrix_Mult. by rewrite Hx, Hy, Nat.eqb_refl. Qed.

Lemma Matrix_AddMult_run o A x y :
  length x = TrueVSize fes -> length y = TrueVSize fes ->
  Matrix_AddMult fes o A x y =
    Ok ([EvApply o x], imap (fun i yi => (yi + matrix_action A x i)%Q) y).
Proof. intros Hx Hy. unfold Matrix_AddMult. by rewrite Hx, Hy, Nat.eqb_refl. Qed.


End LibraryRuns.


(** Reduce the projections of an updated operator, and nothing else. *)
Ltac op_fields :=
  cbn [ResistiveMHDOperator.height ResistiveMHDOperator.fespace
       ResistiveMHDOperator.ess_tdof_list ResistiveMHDOperator.M
       ResistiveMHDOperator.K ResistiveMHDOperator.KB ResistiveMHDOperator.DSl
       ResistiveMHDOperator.DRe ResistiveMHDOperator.Nv ResistiveMHDOperator.Nb
       ResistiveMHDOperator.E0 ResistiveMHDOperator.Sw ResistiveMHDOperator.Kmat
       ResistiveMHDOperator.Mmat ResistiveMHDOperator.E0Vec
       ResistiveMHDOperator.viscosity ResistiveMHDOperator.resistivity
       ResistiveMHDOperator.jBdy ResistiveMHDOperator.useAMG
       ResistiveMHDOperator.reduced_oper ResistiveMHDOperator.pnewton_solver
       ResistiveMHDOperator.M_solver ResistiveMHDOperator.M_prec
       ResistiveMHDOperator.K_solver ResistiveMHDOperator.K_prec
       ResistiveMHDOperator.K_amg ResistiveMHDOperator.K_pcg
       ResistiveMHDOperator.j ResistiveMHDOperator.z ResistiveMHDOperator.zFull
       ResistiveMHDOperator.gf
       ResistiveMHDOperator.with_fields ResistiveMHDOperator.with_Nv
       ResistiveMHDOperator.with_Nb ResistiveMHDOperator.with_E0
       ResistiveMHDOperator.with_jBdy ResistiveMHDOperator.with_implicit
       ResistiveMHDOperator.with_j ResistiveMHDOperator.with_scratch
       gf_fes gf_data t_vec v_base v_off v_len oper iterative_mode].

Section WellSized.
Context `{Library} `{NonlinearSolver}.
Import ResistiveMHDOperator.



End WellSized.

(** ** Vectors that keep their place and their length *)

Lemma sized_refl h : sized h h.
Proof. intros a d0 Hd0. by exists d0. Qed.

Lemma sized_insert h0 h a d :
  sized h0 h -> (forall d0, h0 !! a = Some d0 -> length d = length d0) ->
  sized h0 (<[a := d]> h).
Proof.
  intros Hs Hl b d0 Hd0. destruct (decide (b = a)) as [->|Hne].
  - exists d. rewrite lookup_insert_eq. split; [done|]. by apply Hl.
  - rewrite lookup_insert_ne by done. by apply Hs.
Qed.

Section Sized.
Context {A B : Type}.




Lemma sized_ret (a : A) h0 w :
  sized h0 (heap w) -> returns (ret a) w (fun a' w' => a' = a /\ sized h0 (heap w')).
Proof. intros Hs. by apply returns_ret. Qed.
End Sized.






Lemma sized_on_view v f h0 d0 w :
  sized h0 (heap w) -> h0 !! v_base v = Some d0 -> v_off v + v_len v <= length d0 ->
  (forall x, length x = v_len v ->
     exists es y', f x = Ok (es, y') /\ length y' = v_len v) ->
  returns (on_view v f) w (fun _ w' => sized h0 (heap w')).
Proof.
  intros Hs Hd0 Hle Hf. destruct (Hs _ d0 Hd0) as (d & Hd & Hl).
  destruct (Hf (slice (v_off v) (v_len v) d)) as (es & y' & Hy & Hly).
  { apply length_slice. lia. }
  eapply returns_on_view; [exact Hd | lia | exact Hy | exact Hly |].
  cbn [heap]. apply sized_insert; [done|].
  intros d0' Hd0'. rewrite length_splice by lia. congruence.
Qed.






Section LibrarySized.
Context `{Library}.
Variable fes : ParFiniteElementSpace.




Lemma sized_on_view_TrueAddMult v o a x h0 d0 w :
  length x = TrueVSize fes -> v_len v = TrueVSize fes ->
  sized h0 (heap w) -> h0 !! v_base v = Some d0 -> v_off v + v_len v <= length d0 ->
  returns (on_view v (TrueAddMult fes o a x)) w (fun _ w' => sized h0 (heap w')).
Proof.
  intros Hx Hv Hs Hd0 Hle. eapply sized_on_view; [exact Hs | exact Hd0 | exact Hle |].
  intros y Hy. eexists _, _. split.
  - apply TrueAddMult_run; congruence.
  - by rewrite length_imap.
Qed.

Lemma sized_on_view_Matrix_Mult v o A x h0 d0 w :
  length x = TrueVSize fes -> v_len v = TrueVSize fes ->
  sized h0 (heap w) -> h0 !! v_base v = Some d0 -> v_off v + v_len v <= length d0 ->
  returns (on_view v (Matrix_Mult fes o A x)) w (fun _ w' => sized h0 (heap w')).
Proof.
  intros Hx Hv Hs Hd0 Hle. eapply sized_on_view; [exact Hs | exact Hd0 | exact Hle |].
  intros y Hy. eexists _, _. split.
  - apply Matrix_Mult_run; congruence.
  - by rewrite length_imap.
Qed.

Lemma sized_on_view_Matrix_AddMult v o A x h0 d0 w :
  length x = TrueVSize fes -> v_len v = TrueVSize fes ->
  sized h0 (heap w) -> h0 !! v_base v = Some d0 -> v_off v + v_len v <= length d0 ->
  returns (on_view v (Matrix_AddMult fes o A x)) w (fun _ w' => sized h0 (heap w')).
Proof.
  intros Hx Hv Hs Hd0 Hle. eapply sized_on_view; [exact Hs | exact Hd0 | exact Hle |].
  intros y Hy. eexists _, _. split.
  - apply Matrix_AddMult_run; congruence.
  - by rewrite length_imap.
Qed.
End LibrarySized.

Lemma sized_on_view_SetSubVector v dofs c h0 d0 w :
  (forall i, i ∈ dofs -> i < v_len v) ->
  sized h0 (heap w) -> h0 !! v_base v = Some d0 -> v_off v + v_len v <= length d0 ->
  returns (on_view v (SetSubVector dofs c)) w (fun _ w' => sized h0 (heap w')).
Proof.
  intros Hin Hs Hd0 Hle. eapply sized_on_view; [exact Hs | exact Hd0 | exact Hle |].
  intros y Hy. eexists _, _. split.
  - apply SetSubVector_run. by rewrite Hy.
  - by rewrite length_SetSubVector_list.
Qed.

Section ExplicitReturns.
Context `{Library} `{NonlinearSolver}.
Import ResistiveMHDOperator.


End ExplicitReturns.

(** ** When the explicit evaluator and the potential recovery return *)

Lemma sized_trans h1 h2 h3 : sized h1 h2 -> sized h2 h3 -> sized h1 h3.
Proof.
  intros H12 H23 a d1 Hd1. destruct (H12 a d1 Hd1) as (d2 & Hd2 & Hl2).
  destruct (H23 a d2 Hd2) as (d3 & Hd3 & Hl3). exists d3. split; [done | congruence].
Qed.

Lemma sized_eq h h' : h' = h -> sized h' h.
Proof. intros ->. apply sized_refl. Qed.

(** An overwritten vector was there before, with the same length. *)
Lemma sized_overwrite h a d d' :
  h !! a = Some d -> length d' = length d -> sized (<[a := d']> h) h.
Proof.
  intros Hd Hl b x Hx. destruct (decide (b = a)) as [->|Hne].
  - rewrite lookup_insert_eq in Hx. injection Hx as <-. by exists d.
  - rewrite lookup_insert_ne in Hx by done. by exists x.
Qed.

Lemma on_view_sized_back v f u w w' :
  on_view v f w = (Ok u, w') -> sized (heap w') (heap w).
Proof.
  intros (d & es & y' & Hd & Hle & _ & Hlen & Hh & _)%on_view_Ok.
  rewrite Hh. apply (sized_overwrite _ _ d); [done|].
  apply length_splice. lia.
Qed.

Lemma keeps_guarded_call {A} (c : bool) v (f : Vec -> Lib A) (a : A) :
  keeps_heap (if c then bind (read v) (fun x => call (f x)) else ret a).
Proof.
  destruct c; [|apply keeps_ret].
  apply keeps_bind; [apply keeps_read|]. intros x. apply keeps_call.
Qed.

(** Follow a run backwards: every vector of the current heap was in the
    first heap, with the same length. *)
Ltac keep_sized Hrun Hsz :=
  let a := fresh "a" in let w1 := fresh "w" in let Hs := fresh "Hs" in
  next_step Hrun a w1 Hs;
  first [ apply keeps_deref in Hs | apply keeps_call in Hs | apply keeps_read in Hs
        | apply keeps_read_all in Hs | apply keeps_log in Hs | apply keeps_check in Hs
        | apply keeps_option_call in Hs | apply keeps_guarded_call in Hs
        | apply keeps_SetFromTrueVector in Hs | apply keeps_assemble_from in Hs
        | apply keeps_ret in Hs ];
  rewrite <- Hs in Hsz; clear Hs; open_pairs Hrun.

Ltac view_sized Hrun Hsz :=
  let a := fresh "a" in let w1 := fresh "w" in let Hs := fresh "Hs" in
  next_step Hrun a w1 Hs;
  apply on_view_sized_back in Hs;
  apply (sized_trans _ _ _ Hs) in Hsz; clear Hs.

Section ExplicitNeeds.
Context `{Library} `{NonlinearSolver}.
Import ResistiveMHDOperator.




End ExplicitNeeds.

(** ** Two runs, step by step *)

Lemma bind_ext {A B} (m m' : Run A) (f g : A -> Run B) w :
  m w = m' w -> (forall a w1, f a w1 = g a w1) -> bind m f w = bind m' g w.
Proof.
  intros Hm Hfg. unfold bind. rewrite Hm.
  destruct (m' w) as [[a|s|u] w1]; [apply Hfg | done | done].
Qed.

(** A run whose result goes through [g] at the end. *)
Lemma bind_map_ext {A B C} (m : Run A) (f' : A -> Run C) (f : A -> Run B)
    (g : B -> C) w :
  (forall a w1, f' a w1 = bind (f a) (fun b => ret (g b)) w1) ->
  bind m f' w = bind (bind m f) (fun b => ret (g b)) w.
Proof.
  intros Hf. unfold bind.
  destruct (m w) as [[a|s|u] w1]; [by rewrite Hf | done | done].
Qed.

Ltac map_step :=
  apply bind_map_ext; intros ? ?;
  repeat match goal with
         | |- context [match ?r with pair _ _ => _ end] => is_var r; destruct r
         end.

Ltac ext_step :=
  apply bind_ext; [reflexivity|]; intros ? ?;
  repeat match goal with
         | |- context [match ?r with pair _ _ => _ end] => is_var r; destruct r
         end.

Lemma imap_length_ext {A B} (f : nat -> B) (l l' : list A) :
  length l = length l' -> imap (fun i _ => f i) l = imap (fun i _ => f i) l'.
Proof.
  intros Hl. apply list_eq. intros i. rewrite !list_lookup_imap.
  destruct (l !! i) as [a|] eqn:Ha.
  - destruct (lookup_lt_is_Some_2 l' i) as [a' ->]; [|done].
    rewrite <- Hl. by eapply lookup_lt_Some.
  - apply lookup_ge_None in Ha. rewrite Hl in Ha.
    by rewrite (proj2 (lookup_ge_None l' i) Ha).
Qed.

Section ScratchFree.
Context `{Library} `{NonlinearSolver}.
Import ResistiveMHDOperator.

Lemma Form_Mult_length_ext fes o a x (y y' : Vec) :
  length y = length y' -> Form_Mult fes o a x y = Form_Mult fes o a x y'.
Proof.
  intros Hl. unfold Form_Mult. rewrite Hl.
  by rewrite (imap_length_ext (form_action fes a x) y y' Hl).
Qed.

Lemma Matrix_Mult_length_ext fes o A x (y y' : Vec) :
  length y = length y' -> Matrix_Mult fes o A x y = Matrix_Mult fes o A x y'.
Proof.
  intros Hl. unfold Matrix_Mult. rewrite Hl.
  by rewrite (imap_length_ext (matrix_action A x) y y' Hl).
Qed.

(** X4. The [mutable] members carry nothing from one call to the next. The
    explicit evaluator and the potential recovery give the same outcome,
    the same vectors, the same trace and the same operator whatever the
    scratch vectors z and zFull and the local dofs of gf hold when they
    are called; only the sizes of z and zFull matter. *)
Theorem Mult_scratch_independent vx dvx op w (z' zFull' data' : Vec) :
  length z' = length (z op) -> length zFull' = length (zFull op) ->
  let op1 := with_scratch z' zFull'
               (mkGF (gf_fes (gf op)) data' (t_vec (gf op))) op in
  Mult vx dvx op1 w = Mult vx dvx op w /\
  UpdatePhi vx (with_scratch z' (zFull op) (gf op) op) w = UpdatePhi vx op w.
Proof.
  intros Hz HzF op1. split.
  - unfold Mult, Mult_current, SetFromTrueVector, read_t_vec. subst op1. op_fields.
    rewrite (Fill_length_eq 0 z' (z op) Hz).
    do 2 ext_step.
    apply bind_ext; [|intros ? ?; reflexivity].
    do 2 ext_step.
    apply bind_ext; [|intros ? ?; reflexivity].
    by rewrite (Form_Mult_length_ext _ _ _ _ zFull' (zFull op) HzF).
  - unfold UpdatePhi. op_fields.
    ext_step.
    apply bind_ext; [|intros ? ?; reflexivity].
    by rewrite (Matrix_Mult_length_ext _ _ _ _ z' (z op) Hz).
Qed.

(** X5. [jBdy] is written by [SetJBdy] and read by no method: setting it
    changes nothing in what an evaluation, a potential recovery or an
    implicit step does (the statement that used it is commented out). *)
Theorem SetJBdy_never_read c vx dvx dt k op w :
  Mult vx dvx (SetJBdy c op) w =
    bind (Mult vx dvx op) (fun op' => ret (SetJBdy c op')) w /\
  UpdatePhi vx (SetJBdy c op) w =
    bind (UpdatePhi vx op) (fun op' => ret (SetJBdy c op')) w /\
  ImplicitSolve dt vx k (SetJBdy c op) w =
    bind (ImplicitSolve dt vx k op) (fun op' => ret (SetJBdy c op')) w.
Proof.
  split; [|split].
  - unfold Mult, SetJBdy. op_fields. cbv zeta.
    repeat map_step. reflexivity.
  - unfold UpdatePhi, SetJBdy. op_fields. cbv zeta.
    repeat map_step. reflexivity.
  - unfold ImplicitSolve, SetJBdy. op_fields. cbv zeta.
    repeat map_step. reflexivity.
Qed.
End ScratchFree.

(** ** What the explicit methods leave alone *)

Section ExplicitFrame.
Context `{Library} `{NonlinearSolver}.
Import ResistiveMHDOperator.

Lemma keeps_Mult_current op : keeps_heap (Mult_current op).
Proof.
  unfold Mult_current. apply keeps_bind; [apply keeps_SetFromTrueVector|].
  intros ?. apply keeps_bind; [apply keeps_deref|]. intros ?.
  apply keeps_bind; [apply keeps_call|]. intros ?.
  apply keeps_bind; [apply keeps_deref|]. intros ?.
  apply keeps_bind; [apply keeps_call|]. intros [[? ?] ?].
  apply keeps_bind; [apply keeps_call|]. intros ?. apply keeps_ret.
Qed.

(** Every vector the caller has after an evaluation it had before, with
    the same length. *)
Lemma Mult_Ok_sized vx dvx op w op' w' :
  Mult vx dvx op w = (Ok op', w') -> sized (heap w') (heap w).
Proof.
  intros Hrun. unfold Mult in Hrun. cbv zeta in Hrun.
  next_step Hrun d w1 Hs. apply read_all_Ok in Hs as [Hd ->].
  next_step Hrun u w2 Hs. apply write_all_Ok in Hs as [Hh2 _].
  assert (sized (heap w2) (heap w)) as Hsz.
  { rewrite Hh2. apply (sized_overwrite _ _ d); [done | apply length_Fill]. }
  next_step Hrun r w3 Hs. apply keeps_Mult_current in Hs.
  rewrite <- Hs in Hsz. clear Hs. destruct r as [[g zF] J].
  do 6 keep_sized Hrun Hsz. view_sized Hrun Hsz.
  do 7 keep_sized Hrun Hsz. view_sized Hrun Hsz.
  apply ret_Ok in Hrun as [_ ->]. exact Hsz.
Qed.

(** X6. What the explicit evaluator leaves alone. An evaluation writes the
    output vector and nothing else in the caller's memory: the state vx
    (when it is another vector) and every other vector are what they
    were, and the output keeps its length. In the operator only the
    [mutable] members z, zFull and the local dofs of gf change; no form
    is assembled. *)
Theorem Mult_writes_only_output vx dvx op w op' w' :
  Mult vx dvx op w = (Ok op', w') ->
  same_except (heap w') (heap w) dvx /\
  (exists d0 d', heap w !! dvx = Some d0 /\ heap w' !! dvx = Some d' /\
                 length d' = length d0) /\
  (exists z' zFull' data',
     op' = with_scratch z' zFull' (mkGF (gf_fes (gf op)) data' (t_vec (gf op))) op) /\
  (forall o a, EvAssemble o a ∉ new_events w w').
Proof.
  intros Hrun.
  pose proof (Mult_Ok_sized _ _ _ _ _ _ Hrun) as Hsz.
  apply Mult_Ok_inv in Hrun
    as (d0 & f & tv & KB_ & M_ & A & Nv_ & Nb_ & dx & dx' & Hd0 & _ & _ & _ & _ &
        _ & _ & _ & _ & _ & Hh & Ht & -> & _).
  split; [|split; [|split]].
  - intros a Ha. rewrite Hh. by rewrite !lookup_insert_ne by done.
  - assert (is_Some (heap w' !! dvx)) as [d' Hd']
      by (rewrite Hh, lookup_insert_eq; by eexists).
    destruct (Hsz _ _ Hd') as (d0' & Hd0' & Hl).
    exists d0, d'. split; [done|]. split; [done|]. congruence.
  - eauto.
  - intros o a. apply new_events_app in Ht. rewrite Ht.
    destruct (negb _), (negb _); cbn [events_if app]; intros Hin; by_cases_in Hin.
Qed.

(** X7. What the potential recovery leaves alone. [UpdatePhi] writes the
    phi-block of the state and nothing else: the psi- and w-blocks (every
    entry from the second block on) and every other vector are what they
    were, and in the operator only the scratch vector z changes. This
    holds for the CG and for the AMG branch. *)
Theorem UpdatePhi_writes_only_phi vx op w op' w' :
  UpdatePhi vx op w = (Ok op', w') ->
  let sc := height op / 3 in
  same_except (heap w') (heap w) vx /\
  (exists d d', heap w !! vx = Some d /\ heap w' !! vx = Some d' /\
     length d' = length d /\ forall i, sc <= i -> d' !! i = d !! i) /\
  exists z', op' = with_scratch z' (zFull op) (gf op) op.
Proof.
  intros Hrun sc. unfold UpdatePhi in Hrun. cbv zeta in Hrun.
  change (height op / 3) with sc in Hrun. clearbody sc.
  inv_all Hrun.
  all: fold_heaps; cbn [v_base v_off v_len] in *; same_reads.
  all: match goal with
       | Hl : length ?y = ?s, Hle : 0 + ?s <= length ?d
         |- context [<[?v := splice 0 ?y ?d]> _] =>
           split; [intros a Ha; by rewrite lookup_insert_ne by done|];
           split; [exists d, (splice 0 y d); rewrite lookup_insert_eq;
                   split; [done|]; split; [done|];
                   split; [apply length_splice; lia|];
                   intros i Hi; apply lookup_splice_out; lia
                  | by eexists]
       end.
Qed.
End ExplicitFrame.

(** ** What the reduced residual never reads *)

(** Reduce the projections of an updated reduced operator. *)
Ltac rop_fields :=
  cbn [ReducedSystemOperator.height ReducedSystemOperator.fespace
       ReducedSystemOperator.M ReducedSystemOperator.K ReducedSystemOperator.KB
       ReducedSystemOperator.DRe ReducedSystemOperator.DSl
       ReducedSystemOperator.Mmat ReducedSystemOperator.Kmat
       ReducedSystemOperator.Mdt ReducedSystemOperator.E0Vec
       ReducedSystemOperator.j0 ReducedSystemOperator.M_solver
       ReducedSystemOperator.dt ReducedSystemOperator.phi
       ReducedSystemOperator.psi ReducedSystemOperator.w
       ReducedSystemOperator.ess_tdof_list ReducedSystemOperator.phiGf
       ReducedSystemOperator.psiGf ReducedSystemOperator.Nv
       ReducedSystemOperator.Nb ReducedSystemOperator.Jacobian
       ReducedSystemOperator.Mtmp ReducedSystemOperator.z
       ReducedSystemOperator.zFull ReducedSystemOperator.Z
       ReducedSystemOperator.J
       ReducedSystemOperator.SetParameters ReducedSystemOperator.SetCurrent
       ReducedSystemOperator.with_E0Vec ReducedSystemOperator.with_mutable
       gf_fes gf_data t_vec v_base v_off v_len].

Ltac rop_fields_in H :=
  cbn [ReducedSystemOperator.height ReducedSystemOperator.fespace
       ReducedSystemOperator.M ReducedSystemOperator.K ReducedSystemOperator.KB
       ReducedSystemOperator.DRe ReducedSystemOperator.DSl
       ReducedSystemOperator.Mmat ReducedSystemOperator.Kmat
       ReducedSystemOperator.Mdt ReducedSystemOperator.E0Vec
       ReducedSystemOperator.j0 ReducedSystemOperator.M_solver
       ReducedSystemOperator.dt ReducedSystemOperator.phi
       ReducedSystemOperator.psi ReducedSystemOperator.w
       ReducedSystemOperator.ess_tdof_list ReducedSystemOperator.phiGf
       ReducedSystemOperator.psiGf ReducedSystemOperator.Nv
       ReducedSystemOperator.Nb ReducedSystemOperator.Jacobian
       ReducedSystemOperator.Mtmp ReducedSystemOperator.z
       ReducedSystemOperator.zFull ReducedSystemOperator.Z
       ReducedSystemOperator.J
       ReducedSystemOperator.SetParameters ReducedSystemOperator.SetCurrent
       ReducedSystemOperator.with_E0Vec ReducedSystemOperator.with_mutable
       gf_fes gf_data t_vec v_base v_off v_len] in H.


Section ReducedNeverReads.
Context `{Library}.
Import ReducedSystemOperator.

(** X8. The reduced residual never reads the pointer phi that
    [SetParameters] stores: whatever view of the start-of-step potential
    is handed over (null included), an evaluation does the same and
    leaves the same residual. *)
Theorem ReducedMult_phi_unused p k y op w :
  Mult k y (SetParameters (dt op) p (psi op) (ReducedSystemOperator.w op) op) w =
    bind (Mult k y op)
      (fun op' => ret (SetParameters (dt op) p (psi op) (ReducedSystemOperator.w op) op'))
      w.
Proof.
  unfold Mult. rop_fields. cbv zeta.
  repeat map_step. reflexivity.
Qed.

(** X9. The [mutable] members of the reduced operator carry nothing from
    one evaluation to the next: whatever phiGf, psiGf, Nv, Nb, Mtmp, z, Z
    and J hold, and whatever zFull holds as long as it has its size, an
    evaluation has the same outcome. *)
Theorem ReducedMult_scratch_independent k y op w gA gB Nv0 Nb0 Mt
    (z' zFull' Z' J' : Vec) :
  length zFull' = length (zFull op) ->
  Mult k y (with_mutable gA gB Nv0 Nb0 Mt z' zFull' Z' J' op) w = Mult k y op w.
Proof.
  intros HzF.
  unfold Mult, assemble_from, MakeTRef, SetFromTrueVector, read_t_vec.
  rop_fields. cbv zeta.
  do 3 ext_step.
  apply bind_ext; [|intros ? ?; reflexivity].
  by rewrite (Form_Mult_length_ext _ _ _ _ zFull' (zFull op) HzF).
Qed.

Lemma ReducedMult_never_aborts k y op : never_aborts (Mult k y op).
Proof.
  unfold Mult, assemble_from. cbv zeta. solve_na.
Qed.

(** X10. What the reduced residual needs. An evaluation contains no check:
    it never ends in a diagnosed failure, and it cannot return while one
    of the pointers KB, M, j0, M_solver, psi or w is null (psi and w are
    null until [SetParameters] is called, j0 is set by [SetCurrent]); it
    is then undefined. *)
Theorem ReducedMult_needs_parameters k y op w :
  (forall msg w', Mult k y op w <> (Abort msg, w')) /\
  (KB op = None \/ M op = None \/ j0 op = None \/ M_solver op = None \/
   psi op = None \/ ReducedSystemOperator.w op = None ->
   exists u w', Mult k y op w = (Undefined u, w')).
Proof.
  split; [apply ReducedMult_never_aborts|].
  intros Hnull. destruct (Mult k y op w) as [[op'|msg|u] w'] eqn:Hrun.
  - exfalso. unfold Mult in Hrun. cbv zeta in Hrun.
    do 2 drop_step Hrun.
    next_step Hrun a1 w1 Hs. apply deref_Ok in Hs as [HKB _].
    drop_step Hrun.
    next_step Hrun a2 w2 Hs. apply deref_Ok in Hs as [HM _].
    next_step Hrun a3 w3 Hs. apply deref_Ok in Hs as [Hj0 _].
    drop_step Hrun.
    next_step Hrun a4 w4 Hs. apply deref_Ok in Hs as [HMs _].
    do 7 drop_step Hrun.
    next_step Hrun a5 w5 Hs. apply deref_Ok in Hs as [Hpsi _].
    do 9 drop_step Hrun.
    next_step Hrun a6 w6 Hs. apply deref_Ok in Hs as [Hw _].
    destruct Hnull as [?|[?|[?|[?|[?|?]]]]]; congruence.
  - by destruct (ReducedMult_never_aborts k y op w msg w').
  - eauto.
Qed.
End ReducedNeverReads.

(** ** What the reduced residual leaves alone *)

(** A guarded application [if (D != NULL) D->TrueAddMult(x, y)]. *)
Lemma guarded_frame {D : Type} (o : option D) rd v (g : D -> Vec -> Vec -> Lib Vec)
    u w w' :
  match o with
  | Some a => bind (read rd) (fun x => on_view v (g a x))
  | None => ret tt
  end w = (Ok u, w') ->
  sized (heap w') (heap w) /\
  forall h0, same_except (heap w) h0 (v_base v) -> same_except (heap w') h0 (v_base v).
Proof.
  intros Hs. destruct o as [a|].
  - apply bind_Ok in Hs as (x & w1 & Hr & Hs).
    apply keeps_read in Hr. rewrite <- Hr. split.
    + by eapply on_view_sized_back.
    + intros h0 Hsame. by eapply on_view_same_except.
  - apply ret_Ok in Hs as [_ ->]. split; [apply sized_refl | done].
Qed.

(** One step of a run that writes only to the vector at [y]. *)
Ltac frame_step Hrun Hsz Hsame :=
  let a := fresh "a" in let w1 := fresh "w" in let Hs := fresh "Hs" in
  let Hb := fresh "Hb" in
  next_step Hrun a w1 Hs; open_pairs Hrun;
  first
    [ first [ apply keeps_deref in Hs | apply keeps_call in Hs | apply keeps_read in Hs
            | apply keeps_option_call in Hs | apply keeps_assemble_from in Hs ];
      rewrite <- Hs in Hsz, Hsame; clear Hs
    | pose proof (on_view_sized_back _ _ _ _ _ Hs) as Hb;
      apply (on_view_same_except _ _ _ _ _ _ Hs) in Hsame;
      apply (sized_trans _ _ _ Hb) in Hsz; clear Hs Hb
    | apply guarded_frame in Hs as [Hb Hs];
      apply Hs in Hsame; apply (sized_trans _ _ _ Hb) in Hsz; clear Hs Hb ].

Section ReducedFrame.
Context `{Library}.
Import ReducedSystemOperator.

(** X11. What the reduced residual leaves alone. An evaluation writes the
    residual vector y and nothing else in the caller's memory: the
    iterate k and the start-of-step state (when they are other vectors)
    are what they were, and y keeps its length. In the operator only the
    [mutable] members change. *)
Theorem ReducedMult_writes_only_residual k y op w op' w' :
  Mult k y op w = (Ok op', w') ->
  same_except (heap w') (heap w) y /\
  (exists d d', heap w !! y = Some d /\ heap w' !! y = Some d' /\
                length d' = length d) /\
  exists gA gB Nv' Nb' Mt z' zFull' Z' J',
    op' = with_mutable gA gB Nv' Nb' Mt z' zFull' Z' J' op.
Proof.
  intros Hrun. unfold Mult in Hrun. cbv zeta in Hrun.
  remember (heap w) as h0 eqn:Hh0.
  assert (sized (heap w) h0) as Hsz by (subst h0; apply sized_refl).
  assert (same_except (heap w) h0 y) as Hsame by (by subst h0).
  clear Hh0.
  do 33 (frame_step Hrun Hsz Hsame; cbn [v_base] in Hsame).
  (* the last write: y is a vector of the heap *)
  next_step Hrun u1 wa Hs.
  assert (is_Some (heap wa !! y)) as [d' Hd'].
  { apply on_view_Ok in Hs as (d & es & y' & _ & _ & _ & _ & Hh & _).
    cbn [v_base] in Hh. rewrite Hh, lookup_insert_eq. by eexists. }
  pose proof (on_view_sized_back _ _ _ _ _ Hs) as Hb.
  apply (on_view_same_except _ _ _ _ _ _ Hs) in Hsame. cbn [v_base] in Hsame.
  apply (sized_trans _ _ _ Hb) in Hsz. clear Hs Hb.
  apply ret_Ok in Hrun as [-> ->].
  split; [exact Hsame|]. split; [|by eauto 10].
  destruct (Hsz _ _ Hd') as (d & Hd & Hl). by exists d, d'.
Qed.
End ReducedFrame.

(** ** The entries of the reduced residual *)

(** Carry what is known of the heap over one step of the reduced
    residual, whatever the step is. *)
Ltac view_facts Hrun :=
  let a := fresh "a" in let w1 := fresh "w" in let Hs := fresh "Hs" in
  next_step Hrun a w1 Hs;
  lazymatch type of Hs with on_view _ _ _ = _ => idtac end;
  repeat match goal with
         | Hz : same_except (heap ?w0) _ _ |- _ =>
             lazymatch type of Hs with
             | on_view _ _ w0 = _ => apply (on_view_same_except _ _ _ _ _ _ Hs) in Hz
             end
         | Hz : block_is (heap ?w0) _ _ _ |- _ =>
             lazymatch type of Hs with
             | on_view _ _ w0 = _ =>
                 eapply (on_view_keeps_block _ _ _ _ _ _ _ _ Hs) in Hz;
                 [ | cbn [v_base v_off v_len]; lia ]
             end
         end;
  cbn [v_base] in *; clear Hs.

Ltac guarded_facts Hrun :=
  let a := fresh "a" in let w1 := fresh "w" in let Hs := fresh "Hs" in
  let Hb := fresh "Hb" in
  next_step Hrun a w1 Hs;
  lazymatch type of Hs with
  | (match _ with Some _ => _ | None => _ end) _ = _ => idtac
  end;
  repeat match goal with
         | Hz : block_is (heap ?w0) _ _ _ |- _ =>
             lazymatch type of Hs with
             | _ w0 = _ =>
                 eapply (guarded_keeps_block _ _ _ _ _ _ _ _ _ _ Hs) in Hz;
                 [ | cbn [v_base v_off v_len]; lia ]
             end
         end;
  pose proof (proj2 (guarded_frame _ _ _ _ _ _ _ Hs)) as Hb;
  repeat match goal with
         | Hz : same_except (heap ?w0) _ _ |- _ =>
             lazymatch type of Hs with
             | _ w0 = _ => apply Hb in Hz
             end
         end;
  cbn [v_base] in *; clear Hs Hb.

Ltac forcing_facts Hrun :=
  let a := fresh "a" in let w1 := fresh "w" in let Hh := fresh "Hh" in
  next_step Hrun a w1 Hh; apply keeps_option_call in Hh; carry_facts Hh; clear Hh.

Ltac facts_step Hrun :=
  first [ keep_facts Hrun | view_facts Hrun | forcing_facts Hrun
        | guarded_facts Hrun ].

Section ReducedBlocks.
Context `{Library}.
Import ReducedSystemOperator.

(** X12. The potential block of the residual. With the residual in another
    vector than the iterate, the entry of y1 at a dof that is not
    essential is (Kmat phiNew + Mmat wNew) at that dof, phiNew and wNew
    being the first and the third block of the iterate. *)
Theorem ReducedMult_potential_entries k y op w op' w' :
  Mult k y op w = (Ok op', w') -> y <> k ->
  let sc := height op / 3 in
  exists dk d',
    heap w !! k = Some dk /\ heap w' !! y = Some d' /\
    let phiNew := slice 0 sc dk in
    let wNew := slice (2 * sc) sc dk in
    forall i, i < sc -> i ∉ ess_tdof_list op ->
      d' !! i = Some (matrix_action (Kmat op) phiNew i
                      + matrix_action (Mmat op) wNew i)%Q.
Proof.
  intros Hrun Hyk sc. unfold Mult in Hrun. cbv zeta in Hrun.
  change (height op / 3) with sc in Hrun.
  assert (same_except (heap w) (heap w) y) as Hsame by done.
  do 9 keep_facts Hrun.
  (* y1 *)
  next_step Hrun phiNew wx1 Hs.
  apply read_Ok in Hs as [-> (dk & Hdk & Hlek & ->)]. cbn [v_base v_off v_len] in *.
  rewrite (Hsame k) in Hdk by done.
  next_step Hrun u1 wx2 Hs.
  pose proof (on_view_same_except _ _ _ _ _ _ Hs Hsame) as Hsame2.
  apply on_view_block_init in Hs as (X0 & es & X1 & HlX0 & Hf & HlX1 & Hblk).
  apply Matrix_Mult_Ok in Hf as (-> & HX1 & _ & _).
  cbn [v_base v_off v_len] in *. clear Hsame.
  next_step Hrun wNew wx3 Hs.
  apply read_Ok in Hs as [-> (dk' & Hdk' & _ & ->)]. cbn [v_base v_off v_len] in *.
  rewrite (Hsame2 k) in Hdk' by done. rewrite Hdk in Hdk'. injection Hdk' as <-.
  next_step Hrun u2 wx4 Hs.
  pose proof (on_view_same_except _ _ _ _ _ _ Hs Hsame2) as Hsame3.
  eapply on_view_block in Hs as (es2 & X2 & Hf & HlX2 & Hblk2);
    [ | exact Hblk | exact HlX1 ].
  apply Matrix_AddMult_Ok in Hf as (-> & HX2 & _ & _).
  cbn [v_base v_off v_len] in *. clear Hsame2 Hblk.
  next_step Hrun u3 wx5 Hs.
  pose proof (on_view_same_except _ _ _ _ _ _ Hs Hsame3) as Hsame4.
  eapply on_view_block in Hs as (es3 & X3 & Hf & HlX3 & Hblk3);
    [ | exact Hblk2 | exact HlX2 ].
  apply SetSubVector_Ok in Hf as (_ & HX3 & _).
  cbn [v_base v_off v_len] in *. clear Hsame3 Hblk2.
  (* y2, y3 *)
  do 20 facts_step Hrun.
  apply ret_Ok in Hrun as [-> ->].
  destruct Hblk3 as (d' & Hd' & _ & Hslice). rewrite HlX3 in Hslice.
  exists dk, d'. split; [exact Hdk|]. split; [exact Hd'|].
  cbv zeta. intros i Hi Hnin.
  pose proof (lookup_slice 0 sc d' i Hi) as Hl. cbn [Nat.add] in Hl.
  rewrite <- Hl, Hslice, HX3.
  rewrite lookup_SetSubVector_list_notin by done.
  rewrite HX2, list_lookup_imap, HX1, list_lookup_imap.
  destruct (lookup_lt_is_Some_2 X0 i) as [x0 ->]; [lia|]. done.
Qed.

(** X13. The flux block of the residual, entry by entry. With the residual
    in another vector than the iterate and the start-of-step state, and
    a step size that is not zero, the entry of y2 at a dof that is not
    essential is (Mmat ((psiNew - psi)/dt) + Nv psiNew + DSl psiNew) at
    that dof, the DSl term being left out when DSl is null; the forcing
    vector does not appear, configured or not. *)
Theorem ReducedMult_flux_entries k y op w op' w' psi_v :
  Mult k y op w = (Ok op', w') ->
  y <> k -> psi op = Some psi_v -> v_base psi_v <> y -> ~ (dt op == 0)%Q ->
  let sc := height op / 3 in
  let fes := fespace op in
  exists dk dpsi d' Nv_,
    heap w !! k = Some dk /\ heap w !! v_base psi_v = Some dpsi /\
    heap w' !! y = Some d' /\ Nv op' = Some Nv_ /\
    let psiNew := slice sc sc dk in
    let psi0 := slice (v_off psi_v) (v_len psi_v) dpsi in
    let rate := Scale_div (dt op) (zip_with Qminus psiNew psi0) in
    (forall j a b, psiNew !! j = Some a -> psi0 !! j = Some b ->
       exists r, rate !! j = Some r /\ (r == (a - b) / dt op)%Q) /\
    forall i, i < sc -> i ∉ ess_tdof_list op ->
      exists q, d' !! (sc + i) = Some q /\
        (q == matrix_action (Mmat op) rate i + form_true_action fes Nv_ psiNew i
              + match DSl op with
                | Some D => form_true_action fes D psiNew i
                | None => 0
                end)%Q.
Proof.
  intros Hrun Hyk Hpsi Hpy Hdt sc fes.
  destruct (ReducedMult_flux_block k y op w op' w' psi_v Hrun Hyk Hpsi Hpy)
    as (dk & dpsi & d' & Nv_ & Hdk & Hdpsi & Hd' & HNv & Hall).
  fold sc in Hall.
  exists dk, dpsi, d', Nv_. do 4 (split; [assumption|]).
  cbv zeta. split.
  { intros j a b Ha Hb. rewrite lookup_Scale_div, lookup_zip_with, Ha, Hb.
    eexists. split; [reflexivity|]. by apply quotient_nonzero. }
  intros i Hi Hnin.
  pose proof (Forall2_length _ _ _ Hall) as Hlen.
  unfold y2_spec in Hlen. rewrite length_SetSubVector_list, length_tabulate in Hlen.
  rop_fields_in Hlen. fold sc in Hlen.
  destruct (lookup_lt_is_Some_2 (slice sc sc d') i) as [q Hq]; [lia|].
  exists q. split; [by rewrite <- (lookup_slice sc sc d' i Hi)|].
  destruct (Forall2_lookup_l _ _ _ _ _ Hall Hq) as (q' & Hq' & Hqq).
  unfold y2_spec in Hq'. rop_fields_in Hq'. fold sc in Hq'.
  rewrite lookup_SetSubVector_list_notin, lookup_tabulate in Hq' by done.
  injection Hq' as <-. rewrite Hqq. subst fes. destruct (DSl op); ring.
Qed.

(** X14. The vorticity block of the residual, entry by entry. With the
    residual in another vector than the iterate and the start-of-step
    state, and a step size that is not zero, the entry of y3 at a dof
    that is not essential is
    (Mmat ((wNew - w)/dt) + Nv wNew + DRe wNew + Nb J) at that dof, J
    being the current the evaluation has recovered (left in the member
    J) and the DRe term being left out when DRe is null. *)
Theorem ReducedMult_vorticity_entries k y op w op' w' w_v :
  Mult k y op w = (Ok op', w') ->
  y <> k -> ReducedSystemOperator.w op = Some w_v -> v_base w_v <> y ->
  ~ (dt op == 0)%Q ->
  let sc := height op / 3 in
  let fes := fespace op in
  exists dk dw d' Nv_ Nb_,
    heap w !! k = Some dk /\ heap w !! v_base w_v = Some dw /\
    heap w' !! y = Some d' /\ Nv op' = Some Nv_ /\ Nb op' = Some Nb_ /\
    let wNew := slice (2 * sc) sc dk in
    let w0 := slice (v_off w_v) (v_len w_v) dw in
    let rate := Scale_div (dt op) (zip_with Qminus wNew w0) in
    (forall j a b, wNew !! j = Some a -> w0 !! j = Some b ->
       exists r, rate !! j = Some r /\ (r == (a - b) / dt op)%Q) /\
    forall i, i < sc -> i ∉ ess_tdof_list op ->
      exists q, d' !! (2 * sc + i) = Some q /\
        (q == matrix_action (Mmat op) rate i + form_true_action fes Nv_ wNew i
              + match DRe op with
                | Some D => form_true_action fes D wNew i
                | None => 0
                end
              + form_true_action fes Nb_ (J op') i)%Q.
Proof.
  intros Hrun Hyk Hw Hwy Hdt sc fes. unfold Mult in Hrun. cbv zeta in Hrun.
  change (height op / 3) with sc in Hrun.
  assert (same_except (heap w) (heap w) y) as Hsame by done.
  do 24 facts_step Hrun.
  (* y3 *)
  next_step Hrun wNew wx1 Hs.
  apply read_Ok in Hs as [-> (dk & Hdk & Hlek & ->)]. cbn [v_base v_off v_len] in *.
  rewrite (Hsame k) in Hdk by done.
  next_step Hrun wview wx2 Hs. apply deref_Ok in Hs as [Hp ->].
  rewrite Hw in Hp. injection Hp as <-.
  next_step Hrun wold wx3 Hs.
  apply read_Ok in Hs as [-> (dw & Hdw & Hlew & ->)].
  rewrite (Hsame (v_base w_v)) in Hdw by done.
  next_step Hrun zd wx4 Hs.
  apply call_Ok in Hs as (es & Hf & Hh & _). carry_facts Hh. clear Hh.
  apply vec_zip_Ok in Hf as (-> & -> & Hlz).
  next_step Hrun u1 wx5 Hs.
  pose proof (on_view_same_except _ _ _ _ _ _ Hs Hsame) as Hsame2.
  apply on_view_block_init in Hs as (X0 & es1 & X1 & HlX0 & Hf & HlX1 & Hblk).
  apply Matrix_Mult_Ok in Hf as (-> & HX1 & _ & _).
  cbn [v_base v_off v_len] in *. clear Hsame.
  next_step Hrun wNew' wx6 Hs.
  apply read_Ok in Hs as [-> (dk' & Hdk' & _ & ->)]. cbn [v_base v_off v_len] in *.
  rewrite (Hsame2 k) in Hdk' by done. rewrite Hdk in Hdk'. injection Hdk' as <-.
  next_step Hrun u2 wx7 Hs.
  pose proof (on_view_same_except _ _ _ _ _ _ Hs Hsame2) as Hsame3.
  eapply on_view_block in Hs as (es2 & X2 & Hf & HlX2 & Hblk2);
    [ | exact Hblk | exact HlX1 ].
  apply TrueAddMult_Ok in Hf as (-> & HX2 & _ & _).
  cbn [v_base v_off v_len] in *. clear Hsame2 Hblk.
  next_step Hrun u3 wx8 Hs.
  assert (exists X3,
    block_is (heap wx8) y (2 * sc) X3 /\ length X3 = sc /\
    X3 = match DRe op with
         | Some D => imap (fun i yi => (yi + form_true_action (fespace op) D
                                               (slice (2 * sc) sc dk) i)%Q) X2
         | None => X2
         end) as (X3 & Hblk3 & HlX3 & HX3).
  { destruct (DRe op) as [D|].
    - next_step Hs wNew'' wx9 Hr.
      apply read_Ok in Hr as [-> (dk'' & Hdk'' & _ & ->)].
      cbn [v_base v_off v_len] in *.
      rewrite (Hsame3 k) in Hdk'' by done. rewrite Hdk in Hdk''.
      injection Hdk'' as <-.
      eapply on_view_block in Hs as (es3 & X3 & Hf & HlX3 & Hblk3);
        [ | exact Hblk2 | exact HlX2 ].
      apply TrueAddMult_Ok in Hf as (-> & -> & _ & _).
      eexists. split; [exact Hblk3|]. split; [exact HlX3 | reflexivity].
    - apply ret_Ok in Hs as [_ ->]. eexists. split; [exact Hblk2|].
      split; [exact HlX2 | reflexivity]. }
  clear Hs Hblk2 Hsame3.
  next_step Hrun u4 wx10 Hs.
  eapply on_view_block in Hs as (es4 & X4 & Hf & HlX4 & Hblk4);
    [ | exact Hblk3 | exact HlX3 ].
  apply TrueAddMult_Ok in Hf as (-> & HX4 & _ & _).
  cbn [v_base v_off v_len] in *. clear Hblk3.
  next_step Hrun u5 wx11 Hs.
  eapply on_view_block in Hs as (es5 & X5 & Hf & HlX5 & Hblk5);
    [ | exact Hblk4 | exact HlX4 ].
  apply SetSubVector_Ok in Hf as (_ & HX5 & _).
  cbn [v_base v_off v_len] in *. clear Hblk4.
  apply ret_Ok in Hrun as [-> ->].
  destruct Hblk5 as (d' & Hd' & _ & Hslice). rewrite HlX5 in Hslice.
  eexists dk, dw, d', _, _.
  split; [exact Hdk|]. split; [exact Hdw|]. split; [exact Hd'|].
  split; [reflexivity|]. split; [reflexivity|].
  cbv zeta. rop_fields. split.
  { intros j qa qb Hqa Hqb. rewrite lookup_Scale_div, lookup_zip_with, Hqa, Hqb.
    eexists. split; [reflexivity|]. by apply quotient_nonzero. }
  intros i Hi Hnin.
  rewrite <- (lookup_slice (2 * sc) sc d' i Hi), Hslice, HX5.
  rewrite lookup_SetSubVector_list_notin by done.
  destruct (lookup_lt_is_Some_2 X0 i) as [x0 Hx0]; [lia|].
  rewrite HX4, list_lookup_imap, HX3. subst fes.
  destruct (DRe op) as [D|].
  - rewrite list_lookup_imap, HX2, list_lookup_imap, HX1, list_lookup_imap, Hx0.
    cbn. eexists. split; [reflexivity|ring].
  - rewrite HX2, list_lookup_imap, HX1, list_lookup_imap, Hx0.
    cbn. eexists. split; [reflexivity|ring].
Qed.
End ReducedBlocks.

(** ** The current in the reduced residual *)

Section ReducedCurrent.
Context `{Library}.
Import ReducedSystemOperator.

(** X15. The current in the reduced residual. Every evaluation recovers the
    current from the psi-block of the iterate it is given: the grid
    function of that block goes through KB and the negation,
    FormLinearSystem on M with j0 as boundary data, and the mass solve
    started from the vector FormLinearSystem returns; the result is left
    in the member J and is the vector Nb is applied to. j0 itself is
    only read. *)
Theorem ReducedMult_current k y op w op' w' :
  Mult k y op w = (Ok op', w') ->
  let sc := height op / 3 in
  let fes := fespace op in
  exists dk KB_ M_ j0_ ms A,
    heap w !! k = Some dk /\ KB op = Some KB_ /\ M op = Some M_ /\
    j0 op = Some j0_ /\ M_solver op = Some ms /\ oper ms = Some A /\
    let data := tabulate (GetVSize fes) (Distribute fes (slice sc sc dk)) in
    let b := Neg (imap (fun i _ => form_action fes KB_ data i) (zFull op)) in
    let X := tabulate (TrueVSize fes)
               (FormLinearSystem_X fes M_ (ess_tdof_list op) (gf_data j0_) b) in
    let B := tabulate (TrueVSize fes)
               (FormLinearSystem_B fes M_ (ess_tdof_list op) (gf_data j0_) b) in
    J op' = solution ms A B X /\ j0 op' = j0 op /\
    EvApply opKB data ∈ new_events w w' /\
    EvFormLinearSystem opM (gf_data j0_) b ∈ new_events w w' /\
    EvSolve sM_solver B (guess ms X) ∈ new_events w w' /\
    (forall x, EvApply opNb x ∈ new_events w w' <-> x = J op').
Proof.
  intros Hrun sc fes.
  unfold Mult in Hrun. cbv zeta in Hrun.
  change (height op / 3) with sc in Hrun. subst fes. clearbody sc.
  inv_all Hrun.
  all: fold_heaps; cbn [v_base v_off v_len gf_data gf_fes t_vec] in *.
  all: unfold tvec_in in *; cbn [v_base v_off v_len gf_data gf_fes t_vec] in *.
  all: repeat match goal with
         | Hx : exists _, _ |- _ => destruct Hx as (? & ? & ? & ->)
         end.
  all: repeat match goal with
         | Hx : Some _ = Some _ |- _ => injection Hx as <-
         end.
  all: same_reads.
  all: assert (sc = TrueVSize (fespace op)) as Hsc
         by (lazymatch goal with
             | Hl : length (slice 0 ?s ?d) = TrueVSize _, Hle : 0 + ?s <= length ?d
               |- ?s = _ => rewrite (length_slice _ _ _ Hle) in Hl; exact Hl
             end).
  all: rewrite <- Hsc in *.
  all: do 6 eexists.
  all: do 6 (split; [eassumption|]).
  all: cbv zeta; rop_fields; unfold solution, guess.
  all: split; [reflexivity|].
  all: split; [reflexivity|].
  all: erewrite new_events_app by (unroll_trace; reflexivity).
  all: split; [find_in|].
  all: split; [find_in|].
  all: split; [find_in|].
  all: intros xv; split; [intros Hin; by_cases_in Hin | intros ->; find_in].
Qed.
End ReducedCurrent.

(** ** Edges of the implicit step *)

Section ImplicitEdges.
Context `{Library} `{NonlinearSolver}.
Import ResistiveMHDOperator.

(** X16. The implicit step with the state and the result in the same
    vector. [k -= vx] then subtracts the solved state from itself: for a
    converged solve and a step size that is not zero the call returns,
    and what it leaves in the vector is zero in every entry, whatever
    the Newton solver has found. *)
Theorem ImplicitSolve_aliased dt k op w ro ns k0 :
  reduced_oper op = Some ro -> pnewton_solver op = Some ns ->
  heap w !! k = Some k0 -> ~ (dt == 0)%Q ->
  let sc := height op / 3 in
  let ro' := ReducedSystemOperator.SetParameters dt
               (Some (mkView k 0 sc)) (Some (mkView k sc sc))
               (Some (mkView k (2 * sc) sc)) ro in
  let out := newton_Mult ns ro' (heap w) [] k0 in
  converged (out_solver out) = true ->
  exists op' w' kout,
    ImplicitSolve dt k k op w = (Ok op', w') /\
    heap w' !! k = Some kout /\ length kout = length k0 /\
    Forall (fun q => (q == 0)%Q) kout.
Proof.
  intros Hro Hns Hk Hdt sc ro' out Hconv.
  set (knew := imap (fun i _ => out_k out i) k0).
  eexists _, _, (Scale_div dt (zip_with Qminus knew knew)).
  split.
  { rewrite (ImplicitSolve_run dt k k op w ro ns k0 Hro Hns Hk).
    fold sc ro' out knew. rewrite Hconv.
    unfold bind at 1. simpl.
    unfold bind at 1. unfold read_all at 1. simpl. rewrite lookup_insert_eq.
    unfold bind at 1. unfold read_all at 1. simpl. rewrite lookup_insert_eq.
    unfold bind at 1. unfold call, vec_zip. rewrite Nat.eqb_refl.
    unfold bind at 1. unfold write_all at 1. simpl.
    unfold bind at 1. unfold read_all at 1. simpl. rewrite lookup_insert_eq.
    unfold bind at 1. unfold write_all at 1. simpl.
    reflexivity. }
  simpl. split; [by rewrite lookup_insert_eq|].
  split.
  { rewrite length_Scale_div, length_zip_with. unfold knew.
    rewrite length_imap. lia. }
  apply Forall_lookup_2. intros i q Hq.
  unfold Scale_div in Hq. rewrite list_lookup_fmap, lookup_zip_with in Hq.
  destruct (knew !! i) as [a|]; [|done]. simpl in Hq. injection Hq as <-.
  rewrite (quotient_nonzero _ _ Hdt). field. exact Hdt.
Qed.

(** X17. The only diagnosed failure of the implicit step. If [ImplicitSolve]
    ends in an [MFEM_VERIFY] failure, the message is "Newton solver did
    not converge." and the Newton solver, called on the reduced operator
    with the parameters of this step, has reported that it did not
    converge: no other condition is diagnosed. *)
Theorem ImplicitSolve_abort_only_nonconvergence dt vx k op w msg w' :
  ImplicitSolve dt vx k op w = (Abort msg, w') ->
  msg = "Newton solver did not converge." /\
  exists ro ns k0,
    reduced_oper op = Some ro /\ pnewton_solver op = Some ns /\
    heap w !! k = Some k0 /\
    let sc := height op / 3 in
    let ro' := ReducedSystemOperator.SetParameters dt
                 (Some (mkView vx 0 sc)) (Some (mkView vx sc sc))
                 (Some (mkView vx (2 * sc) sc)) ro in
    converged (out_solver (newton_Mult ns ro' (heap w) [] k0)) = false.
Proof.
  intros Hrun.
  destruct (reduced_oper op) as [ro|] eqn:Hro;
    [|unfold ImplicitSolve in Hrun; rewrite Hro in Hrun; discriminate].
  destruct (pnewton_solver op) as [ns|] eqn:Hns;
    [|unfold ImplicitSolve in Hrun; rewrite Hro, Hns in Hrun; discriminate].
  destruct (heap w !! k) as [k0|] eqn:Hk.
  2:{ unfold ImplicitSolve in Hrun. rewrite Hro, Hns in Hrun.
      unfold bind, deref, ret, read_all in Hrun. cbn in Hrun.
      rewrite Hk in Hrun. discriminate. }
  rewrite (ImplicitSolve_run dt vx k op w ro ns k0 Hro Hns Hk) in Hrun.
  cbv zeta in Hrun.
  destruct (converged _) eqn:Hconv.
  - exfalso. revert Hrun.
    match goal with
    | |- ?m ?w0 = _ -> _ =>
        assert (never_aborts m) as Hna by (unfold MFEM_VERIFY; solve_na)
    end.
    intros Hr. exact (Hna _ _ _ Hr).
  - unfold bind at 1 in Hrun. cbn in Hrun. injection Hrun as <- _.
    split; [reflexivity|]. exists ro, ns, k0. done.
Qed.
End ImplicitEdges.

(** * The operators on the small example *)

Section Examples.
Import Toy.
Local Open Scope Q_scope.

Lemma residual_run_Ok f :
  f = None \/ f = Some forcing ->
  ReducedSystemOperator.Mult 0%nat 1%nat (reduced f) (newton_world k0 out0 state0) =
    (Ok (residual_op f), snd (residual_run f)).
Proof. intros [-> | ->]; vm_compute; reflexivity. Qed.

Lemma explicit_run_Ok :
  ResistiveMHDOperator.Mult 0%nat 1%nat ready_op ready_world =
    (Ok explicit_op, snd explicit_run).
Proof. vm_compute. reflexivity. Qed.

(** C1, on the code. With the forcing vector [5; 5] configured, the
    residual of the example has the flux block [0; 11], exactly as
    without forcing, whereas M (psiNew - psi)/dt + Nv psiNew + DSl psiNew
    plus the forcing is [0; 16]: the forcing vector does not reach y2.
    (It is added to the scratch vector z, which the next statement
    overwrites.) *)
Theorem ReducedMult_drops_forcing :
  let w' := snd (residual_run (Some forcing)) in
  let Nv_ := convection_form [1; 2] in
  fst (residual_run (Some forcing)) = Ok (residual_op (Some forcing)) /\
  ReducedSystemOperator.Nv (residual_op (Some forcing)) = Some Nv_ /\
  heap w' !! 1%nat = Some [0; 10; 0; 44 # 4; 0; -34 # 2] /\
  heap w' !! 1%nat = heap (snd (residual_run None)) !! 1%nat /\
  Forall2 Qeq (y2_spec (reduced (Some forcing)) Nv_ [3; 4] [1; 1]) [0; 16] /\
  Forall2 Qeq (y2_spec (reduced None) Nv_ [3; 4] [1; 1]) [0; 44 # 4] /\
  ~ (44 # 4 == 16).
Proof.
  cbv zeta. split; [vm_compute; reflexivity|]. split; [vm_compute; reflexivity|].
  split; [vm_compute; reflexivity|]. split; [vm_compute; reflexivity|].
  split; [|split].
  - vm_compute. repeat constructor.
  - vm_compute. repeat constructor.
  - vm_compute. discriminate.
Qed.

Lemma ReducedMult_essential_rows_zero_witness :
  ReducedSystemOperator.Mult 0%nat 1%nat (reduced (Some forcing))
    (newton_world k0 out0 state0) =
    (Ok (residual_op (Some forcing)), snd (residual_run (Some forcing))) /\
  exists d, heap (snd (residual_run (Some forcing))) !! 1%nat = Some d /\
    forall i, i ∈ ReducedSystemOperator.ess_tdof_list (reduced (Some forcing)) ->
      d !! i = Some 0 /\
      d !! (ReducedSystemOperator.height (reduced (Some forcing)) / 3 + i)%nat = Some 0 /\
      d !! (2 * (ReducedSystemOperator.height (reduced (Some forcing)) / 3) + i)%nat
        = Some 0.
Proof.
  pose proof (residual_run_Ok (Some forcing) (or_intror eq_refl)) as Hrun.
  split; [exact Hrun|].
  exact (ReducedMult_essential_rows_zero _ _ _ _ _ _ Hrun).
Defined.



(** With zero resistivity and zero viscosity the run applies neither DSl
    nor DRe: what is left is advection. *)
Example Mult_ideal_trace :
  new_events ready_world (snd ideal_run) =
    [EvDistribute [3; 4]; EvApply opKB [3; 4];
     EvFormLinearSystem opM [0; 0] [-(9); -(12)];
     EvSolve sM_solver [0; -(12)] [0; 0];
     EvApply opNv [3; 4];
     EvSolve sM_solver [0; -(4)] [0; 0];
     EvApply opNv [5; 6];
     EvApply opNb [0; -(12)];
     EvSolve sM_solver [0; -(42)] [0; 0]].
Proof. vm_compute. reflexivity. Qed.

Lemma Mult_recomputes_current_locally_witness :
  ResistiveMHDOperator.Mult 0%nat 1%nat ready_op ready_world =
    (Ok explicit_op, snd explicit_run) /\
  ResistiveMHDOperator.j explicit_op = ResistiveMHDOperator.j ready_op /\
  exists J, forall x,
    EvApply opNb x ∈ new_events ready_world (snd explicit_run) <-> x = J.
Proof.
  split; [exact explicit_run_Ok|].
  destruct (Mult_recomputes_current_locally _ _ _ _ _ _ explicit_run_Ok)
    as (d0 & f & tv & KB_ & M_ & A & Hj & _ & _ & _ & _ & _ & _ & _ & _ & _ & HJ).
  split; [exact Hj|]. eexists. exact HJ.
Defined.

Lemma Mult_phi_block_zero_filled_witness :
  ResistiveMHDOperator.Mult 0%nat 1%nat ready_op ready_world =
    (Ok explicit_op, snd explicit_run) /\
  exists d', heap (snd explicit_run) !! 1%nat = Some d' /\
    forall i, (i < ResistiveMHDOperator.height ready_op / 3)%nat -> d' !! i = Some 0.
Proof.
  split; [exact explicit_run_Ok|].
  destruct (Mult_phi_block_zero_filled _ _ _ _ _ _ explicit_run_Ok)
    as (d0 & d' & A & z1 & z2 & _ & Hd' & _ & _ & Hzero & _).
  exists d'. split; [exact Hd' | exact Hzero].
Defined.

Lemma Mult_no_setup_check_witness :
  (ResistiveMHDOperator.Nv fresh = None \/ ResistiveMHDOperator.Nb fresh = None) /\
  exists u w', ResistiveMHDOperator.Mult 0%nat 1%nat fresh (world vx0 out0) =
                 (Undefined u, w').
Proof.
  split; [left; reflexivity|].
  apply (proj2 (Mult_no_setup_check 0%nat 1%nat fresh (world vx0 out0))).
  left. reflexivity.
Defined.

Lemma UpdatePhi_uses_K_solver_witness :
  @reachable library newton fresh /\
  ResistiveMHDOperator.UpdatePhi 0%nat fresh (world vx0 out0) =
    (Ok update_op, snd update_run) /\
  forall e, e ∈ new_events (world vx0 out0) (snd update_run) ->
            solves sK_pcg e = false.
Proof.
  assert (ResistiveMHDOperator.UpdatePhi 0%nat fresh (world vx0 out0) =
          (Ok update_op, snd update_run)) as Hrun by (vm_compute; reflexivity).
  assert (@reachable library newton fresh) as Hreach by apply reach_new.
  split; [exact Hreach|]. split; [exact Hrun|].
  destruct (@UpdatePhi_uses_K_solver library newton _ _ _ _ _ Hreach Hrun)
    as (_ & _ & _ & _ & _ & d & _ & _ & _ & Hpcg).
  exact Hpcg.
Defined.




Lemma ImplicitSolve_nonconvergence_fatal_witness :
  ResistiveMHDOperator.reduced_oper implicit_op = Some (reduced None) /\
  heap ready_world !! 1%nat = Some out0 /\
  exists w',
    @ResistiveMHDOperator.ImplicitSolve library stalled_newton (1 # 2) 0%nat 1%nat implicit_op
      ready_world = (Abort "Newton solver did not converge.", w') /\
    new_events ready_world w' = [EvNewton [] out0].
Proof.
  assert (heap ready_world !! 1%nat = Some out0) as Hk by (vm_compute; reflexivity).
  split; [reflexivity|]. split; [exact Hk|].
  destruct (@ImplicitSolve_nonconvergence_fatal library stalled_newton (1 # 2) 0%nat 1%nat
              implicit_op ready_world (reduced None) (mkNewton false) out0
              eq_refl eq_refl Hk eq_refl)
    as (w' & Hrun & Hev & _).
  exists w'. split; [exact Hrun | exact Hev].
Defined.

(** C2, against the claim as stated. In the example the evaluation
    recovers the current [0; -12] (the vector Nb is applied to), while
    the member j is, after the call, the zero grid function it was
    before, with its own true-dof vector still empty. *)
Lemma Mult_leaves_j_unchanged_counterexample :
  ResistiveMHDOperator.Mult 0%nat 1%nat ready_op ready_world =
    (Ok explicit_op, snd explicit_run) /\
  new_events ready_world (snd explicit_run) =
    [EvDistribute [3; 4]; EvApply opKB [3; 4];
     EvFormLinearSystem opM [0; 0] [-(9); -(12)];
     EvSolve sM_solver [0; -(12)] [0; 0];
     EvApply opNv [3; 4]; EvApply opDSl [3; 4];
     EvSolve sM_solver [0; -20 # 4] [0; 0];
     EvApply opNv [5; 6]; EvApply opDRe [5; 6];
     EvApply opNb [0; -(12)];
     EvSolve sM_solver [0; -90 # 2] [0; 0]] /\
  ResistiveMHDOperator.j explicit_op = mkGF (Some fes) [0; 0] (Owned []) /\
  ResistiveMHDOperator.j ready_op = mkGF (Some fes) [0; 0] (Owned []) /\
  [0; -(12)] <> gf_data (ResistiveMHDOperator.j explicit_op).
Proof.
  split; [exact explicit_run_Ok|].
  split; [vm_compute; reflexivity|].
  split; [vm_compute; reflexivity|].
  split; [vm_compute; reflexivity|].
  vm_compute. discriminate.
Qed.

(** C7, against the claim as stated. On the operator as constructed an
    evaluation does not end in a diagnosed failure: it dereferences the
    space of the unbound grid function gf; once gf is bound it
    dereferences the null Nv. *)
Lemma Mult_fresh_not_diagnosed_counterexample :
  fst (ResistiveMHDOperator.Mult 0%nat 1%nat fresh (world vx0 out0)) =
    Undefined (NullDeref "pfes") /\
  fst (ResistiveMHDOperator.Mult 0%nat 1%nat
         (ResistiveMHDOperator.BindingGF 0%nat fresh) (world vx0 out0)) =
    Undefined (NullDeref "Nv") /\
  forall msg, fst (ResistiveMHDOperator.Mult 0%nat 1%nat fresh (world vx0 out0))
              <> Abort msg.
Proof.
  split; [vm_compute; reflexivity|]. split; [vm_compute; reflexivity|].
  intros msg. vm_compute. discriminate.
Qed.

(** C9, against the claim as stated. The output vector holds 7 in every
    entry before the evaluation; after it the phi-block is [0; 0]. *)
Lemma Mult_phi_block_overwritten_counterexample :
  ResistiveMHDOperator.Mult 0%nat 1%nat ready_op ready_world =
    (Ok explicit_op, snd explicit_run) /\
  heap ready_world !! 1%nat = Some [7; 7; 7; 7; 7; 7] /\
  heap (snd explicit_run) !! 1%nat = Some [0; 0; 0; -20 # 4; 0; -90 # 2] /\
  slice 0 2 [0; 0; 0; -20 # 4; 0; -90 # 2] <> slice 0 2 [7; 7; 7; 7; 7; 7].
Proof.
  split; [exact explicit_run_Ok|].
  split; [vm_compute; reflexivity|]. split; [vm_compute; reflexivity|].
  vm_compute. discriminate.
Qed.
End Examples.

(** * The further statements on the small example *)

Section MoreExamples.
Import Toy.
Local Open Scope Q_scope.
#[local] Existing Instance newton.

Lemma update_run_Ok :
  ResistiveMHDOperator.UpdatePhi 0%nat fresh (world vx0 out0) =
    (Ok update_op, snd update_run).
Proof. vm_compute. reflexivity. Qed.




Lemma Mult_scratch_independent_witness :
  length [9; 9] = length (ResistiveMHDOperator.z ready_op) /\
  length [8; 8] = length (ResistiveMHDOperator.zFull ready_op) /\
  ResistiveMHDOperator.Mult 0%nat 1%nat
    (ResistiveMHDOperator.with_scratch [9; 9] [8; 8]
       (mkGF (gf_fes (ResistiveMHDOperator.gf ready_op)) [7; 7]
             (t_vec (ResistiveMHDOperator.gf ready_op))) ready_op) ready_world =
  ResistiveMHDOperator.Mult 0%nat 1%nat ready_op ready_world.
Proof.
  assert (length [9; 9] = length (ResistiveMHDOperator.z ready_op)) as Hz
    by (vm_compute; reflexivity).
  assert (length [8; 8] = length (ResistiveMHDOperator.zFull ready_op)) as HzF
    by (vm_compute; reflexivity).
  split; [exact Hz|]. split; [exact HzF|].
  exact (proj1 (Mult_scratch_independent 0%nat 1%nat ready_op ready_world
                  [9; 9] [8; 8] [7; 7] Hz HzF)).
Defined.

Lemma Mult_writes_only_output_witness :
  ResistiveMHDOperator.Mult 0%nat 1%nat ready_op ready_world =
    (Ok explicit_op, snd explicit_run) /\
  same_except (heap (snd explicit_run)) (heap ready_world) 1%nat /\
  forall o a, EvAssemble o a ∉ new_events ready_world (snd explicit_run).
Proof.
  split; [exact explicit_run_Ok|].
  destruct (Mult_writes_only_output _ _ _ _ _ _ explicit_run_Ok)
    as (Hsame & _ & _ & Hasm).
  split; [exact Hsame | exact Hasm].
Defined.

Lemma UpdatePhi_writes_only_phi_witness :
  ResistiveMHDOperator.UpdatePhi 0%nat fresh (world vx0 out0) =
    (Ok update_op, snd update_run) /\
  same_except (heap (snd update_run)) (heap (world vx0 out0)) 0%nat /\
  exists z', update_op =
             ResistiveMHDOperator.with_scratch z'
               (ResistiveMHDOperator.zFull fresh) (ResistiveMHDOperator.gf fresh) fresh.
Proof.
  split; [exact update_run_Ok|].
  destruct (UpdatePhi_writes_only_phi _ _ _ _ _ update_run_Ok) as (Hsame & _ & Hop).
  split; [exact Hsame | exact Hop].
Defined.

Lemma ReducedMult_scratch_independent_witness :
  length [8; 8] = length (ReducedSystemOperator.zFull (reduced None)) /\
  ReducedSystemOperator.Mult 0%nat 1%nat
    (ReducedSystemOperator.with_mutable new_ParGridFunction new_ParGridFunction
       None None EmptyMatrix [9] [8; 8] [7] [6] (reduced None))
    (newton_world k0 out0 state0) =
  ReducedSystemOperator.Mult 0%nat 1%nat (reduced None) (newton_world k0 out0 state0).
Proof.
  split; [reflexivity|].
  exact (ReducedMult_scratch_independent 0%nat 1%nat (reduced None)
           (newton_world k0 out0 state0) new_ParGridFunction new_ParGridFunction
           None None EmptyMatrix [9] [8; 8] [7] [6] eq_refl).
Defined.

Lemma ReducedMult_needs_parameters_witness :
  let op := ReducedSystemOperator.SetParameters (1 # 2) None None None (reduced None) in
  ReducedSystemOperator.psi op = None /\
  exists u w', ReducedSystemOperator.Mult 0%nat 1%nat op (newton_world k0 out0 state0) =
               (Undefined u, w').
Proof.
  intros op. split; [reflexivity|].
  apply (proj2 (ReducedMult_needs_parameters 0%nat 1%nat op (newton_world k0 out0 state0))).
  right. right. right. right. left. reflexivity.
Defined.

Lemma ReducedMult_writes_only_residual_witness :
  ReducedSystemOperator.Mult 0%nat 1%nat (reduced None) (newton_world k0 out0 state0) =
    (Ok (residual_op None), snd (residual_run None)) /\
  same_except (heap (snd (residual_run None))) (heap (newton_world k0 out0 state0)) 1%nat.
Proof.
  pose proof (residual_run_Ok None (or_introl eq_refl)) as Hrun.
  split; [exact Hrun|].
  exact (proj1 (ReducedMult_writes_only_residual _ _ _ _ _ _ Hrun)).
Defined.

Lemma ReducedMult_potential_entries_witness :
  ReducedSystemOperator.Mult 0%nat 1%nat (reduced None) (newton_world k0 out0 state0) =
    (Ok (residual_op None), snd (residual_run None)) /\
  1%nat <> 0%nat /\
  exists dk d',
    heap (newton_world k0 out0 state0) !! 0%nat = Some dk /\
    heap (snd (residual_run None)) !! 1%nat = Some d'.
Proof.
  pose proof (residual_run_Ok None (or_introl eq_refl)) as Hrun.
  split; [exact Hrun|]. split; [discriminate|].
  destruct (ReducedMult_potential_entries 0%nat 1%nat _ _ _ _ Hrun ltac:(discriminate))
    as (dk & d' & Hdk & Hd' & _).
  exists dk, d'. split; [exact Hdk | exact Hd'].
Defined.

Lemma ReducedMult_flux_entries_witness :
  ReducedSystemOperator.Mult 0%nat 1%nat (reduced None) (newton_world k0 out0 state0) =
    (Ok (residual_op None), snd (residual_run None)) /\
  ReducedSystemOperator.psi (reduced None) = Some (mkView 2 2 2) /\
  ~ ReducedSystemOperator.dt (reduced None) == 0 /\
  exists dk dpsi d',
    heap (newton_world k0 out0 state0) !! 0%nat = Some dk /\
    heap (newton_world k0 out0 state0) !! 2%nat = Some dpsi /\
    heap (snd (residual_run None)) !! 1%nat = Some d'.
Proof.
  pose proof (residual_run_Ok None (or_introl eq_refl)) as Hrun.
  assert (~ ReducedSystemOperator.dt (reduced None) == 0) as Hdt by discriminate.
  split; [exact Hrun|]. split; [reflexivity|]. split; [exact Hdt|].
  destruct (ReducedMult_flux_entries 0%nat 1%nat _ _ _ _ (mkView 2 2 2) Hrun
              ltac:(discriminate) eq_refl ltac:(discriminate) Hdt)
    as (dk & dpsi & d' & Nv_ & Hdk & Hdpsi & Hd' & _).
  exists dk, dpsi, d'. split; [exact Hdk|]. split; [exact Hdpsi | exact Hd'].
Defined.

Lemma ReducedMult_vorticity_entries_witness :
  ReducedSystemOperator.Mult 0%nat 1%nat (reduced None) (newton_world k0 out0 state0) =
    (Ok (residual_op None), snd (residual_run None)) /\
  ReducedSystemOperator.w (reduced None) = Some (mkView 2 4 2) /\
  ~ ReducedSystemOperator.dt (reduced None) == 0 /\
  exists dk dw d',
    heap (newton_world k0 out0 state0) !! 0%nat = Some dk /\
    heap (newton_world k0 out0 state0) !! 2%nat = Some dw /\
    heap (snd (residual_run None)) !! 1%nat = Some d'.
Proof.
  pose proof (residual_run_Ok None (or_introl eq_refl)) as Hrun.
  assert (~ ReducedSystemOperator.dt (reduced None) == 0) as Hdt by discriminate.
  split; [exact Hrun|]. split; [reflexivity|]. split; [exact Hdt|].
  destruct (ReducedMult_vorticity_entries 0%nat 1%nat _ _ _ _ (mkView 2 4 2) Hrun
              ltac:(discriminate) eq_refl ltac:(discriminate) Hdt)
    as (dk & dw & d' & Nv_ & Nb_ & Hdk & Hdw & Hd' & _).
  exists dk, dw, d'. split; [exact Hdk|]. split; [exact Hdw | exact Hd'].
Defined.

Lemma ReducedMult_current_witness :
  ReducedSystemOperator.Mult 0%nat 1%nat (reduced None) (newton_world k0 out0 state0) =
    (Ok (residual_op None), snd (residual_run None)) /\
  ReducedSystemOperator.j0 (residual_op None) = ReducedSystemOperator.j0 (reduced None) /\
  forall x, EvApply opNb x ∈
              new_events (newton_world k0 out0 state0) (snd (residual_run None))
            <-> x = ReducedSystemOperator.J (residual_op None).
Proof.
  pose proof (residual_run_Ok None (or_introl eq_refl)) as Hrun.
  split; [exact Hrun|].
  destruct (ReducedMult_current _ _ _ _ _ _ Hrun)
    as (dk & KB_ & M_ & j0_ & ms & A & _ & _ & _ & _ & _ & _ & _ & Hj0 & _ & _ & _ & HJ).
  split; [exact Hj0 | exact HJ].
Defined.

Lemma ImplicitSolve_aliased_witness :
  ResistiveMHDOperator.reduced_oper implicit_op = Some (reduced None) /\
  heap ready_world !! 0%nat = Some vx0 /\ ~ (1 # 2 == 0) /\
  exists op' w' kout,
    ResistiveMHDOperator.ImplicitSolve (1 # 2) 0%nat 0%nat implicit_op ready_world =
      (Ok op', w') /\
    heap w' !! 0%nat = Some kout /\ Forall (fun q => q == 0) kout.
Proof.
  assert (heap ready_world !! 0%nat = Some vx0) as Hk by (vm_compute; reflexivity).
  assert (~ (1 # 2 == 0)) as Hdt by discriminate.
  split; [reflexivity|]. split; [exact Hk|]. split; [exact Hdt|].
  destruct (@ImplicitSolve_aliased library newton (1 # 2) 0%nat implicit_op ready_world
              (reduced None) (mkNewton false) vx0 eq_refl eq_refl Hk Hdt eq_refl)
    as (op' & w' & kout & Hrun & Hkout & _ & Hzero).
  exists op', w', kout. split; [exact Hrun|]. split; [exact Hkout | exact Hzero].
Defined.

Lemma ImplicitSolve_abort_only_nonconvergence_witness :
  let r := @ResistiveMHDOperator.ImplicitSolve library stalled_newton (1 # 2)
             0%nat 1%nat implicit_op ready_world in
  r = (Abort "Newton solver did not converge.", snd r) /\
  exists ro ns, ResistiveMHDOperator.reduced_oper implicit_op = Some ro /\
                ResistiveMHDOperator.pnewton_solver implicit_op = Some ns.
Proof.
  intros r.
  assert (r = (Abort "Newton solver did not converge.", snd r)) as Hrun
    by (vm_compute; reflexivity).
  split; [exact Hrun|].
  destruct (@ImplicitSolve_abort_only_nonconvergence library stalled_newton
              (1 # 2) 0%nat 1%nat implicit_op ready_world _ _ Hrun)
    as (_ & ro & ns & k0' & Hro & Hns & _).
  exists ro, ns. split; [exact Hro | exact Hns].
Defined.
End MoreExamples.
